(** * cannon.js, [src/world/World.js]: the physics world

    A shallow embedding of the [World] object: the body registry
    ([add], [remove]), the material pair table ([addMaterial],
    [addContactMaterial], [getContactMaterial]), the double-buffered
    collision matrix ([collisionMatrixTick]) and the stepping pipeline
    ([step]).

    JavaScript numbers that carry physical quantities are rationals ([Q]);
    identifiers, indices and counters are integers ([Z]).  Objects that the
    code shares by reference and mutates in place (bodies, materials, contact
    materials) live in an object store addressed by [ref]; arrays of objects
    are lists of references.  Calls that leave the world (event dispatch,
    [wakeUp], quaternion normalisation) are recorded in a trace. *)

From Stdlib Require Import ZArith QArith Qabs Lia.
From stdpp Require Import base gmap list.

Open Scope Z_scope.

(** ** JavaScript numbers and arrays *)

(** [a < b] on numbers. *)
Definition Qltb (a b : Q) : bool := negb (Qle_bool b a).

(** Truthiness of a number: [0] is falsy. *)
Definition truthy (q : Q) : bool := negb (Qeq_bool q 0).

(** [a || b] on numbers. *)
Definition js_or (a b : Q) : Q := if truthy a then a else b.

(** [a % b] on integers: [NaN] (here [None]) for a zero divisor, otherwise the
    remainder that takes the sign of the dividend. *)
Definition js_rem (a b : Z) : option Z :=
  if b =? 0 then None else Some (Z.rem a b).

(** [arr.length]. *)
Definition js_length {A} (l : list A) : Z := Z.of_nat (length l).

(** [arr[k]]: [undefined] (here [None]) outside [0 .. length-1]. *)
Definition js_get {A} (l : list A) (k : Z) : option A :=
  if k <? 0 then None else l !! Z.to_nat k.

(** [arr[k] = v] on an array whose slots may be holes ([None] reads as
    [undefined]).  Inside the array the slot is overwritten; past the end the
    array is extended with holes up to [k].  A negative [k] names an ordinary
    property and leaves the elements alone (that property is not tracked
    here; no index computed by [addContactMaterial] from registered
    materials is negative). *)
Definition js_set {A} (l : list (option A)) (k : Z) (v : A) : list (option A) :=
  if k <? 0 then l
  else if k <? js_length l then <[Z.to_nat k := Some v]> l
  else l ++ replicate (Z.to_nat (k - js_length l)) None ++ [Some v].

(** [arr.splice(start, 1)]: a negative [start] counts from the end (clamped at
    [0]); a [start] at or past the end removes nothing. *)
Definition js_splice1 {A} (l : list A) (start : Z) : list A :=
  let k := if start <? 0 then Z.max (js_length l + start) 0 else start in
  delete (Z.to_nat k) l.

(** ** Vectors and quaternions ([math/Vec3], [math/Quaternion]) *)

Record Vec3 := mkVec3 { v_x : Q; v_y : Q; v_z : Q }.

Record Quaternion := mkQuat { q_x : Q; q_y : Q; q_z : Q; q_w : Q }.

Definition Vec3_zero : Vec3 := mkVec3 0 0 0.

(** [a.dot(b)]. *)
Definition dot (a b : Vec3) : Q :=
  (v_x a * v_x b + v_y a * v_y b + v_z a * v_z b)%Q.

(** [src.copy(target)].  [Vec3.js] is not part of the source file; the
    direction of the copy is the one [step] relies on when it fills the
    friction equations it has just taken from the pool,
    [c.ri.copy(c1.ri); c.rj.copy(c1.rj); c.ri.copy(c2.ri); c.rj.copy(c2.rj)]
    under the comment "Copy over the relative vectors": the receiver is
    written into the argument.  The function returns the new value of
    [target]. *)
Definition copy {A} (src target : A) : A := src.

(** ** Objects *)

Definition ref := nat.
Definition WorldId := nat.

(** Sleep state of a body. *)
Inductive SleepState := AWAKE | SLEEPY | SLEEPING.

(** The fields of a body that [World.js] reads or writes, grouped by role. *)

(** Membership: [id], [index], [world]. *)
Record Entry := mkEntry {
  b_id : Z;
  b_index : Z;
  b_world : option WorldId
}.

(** Linear state: [position], [velocity], [initPosition], [initVelocity],
    [force]. *)
Record Linear := mkLinear {
  position : Vec3;
  velocity : Vec3;
  initPosition : Vec3;
  initVelocity : Vec3;
  force : Vec3
}.

(** Rotational state, present on a [RigidBody] only: [angularVelocity],
    [quaternion], [initAngularVelocity], [initQuaternion], [tau],
    [invInertia]. *)
Record Rotational := mkRotational {
  angularVelocity : Vec3;
  quaternion : Quaternion;
  initAngularVelocity : Vec3;
  initQuaternion : Quaternion;
  tau : Vec3;
  invInertia : Vec3
}.

(** Properties [World.js] only reads: [mass], [invMass], [motionstate],
    [collisionResponse], [material], [linearDamping], [angularDamping]. *)
Record Physical := mkPhysical {
  mass : Q;
  invMass : Q;
  motionstate : Z;
  collisionResponse : bool;
  material : option ref;
  linearDamping : Q;
  angularDamping : Q
}.

(** Sleeping: [sleepState], [timeLastSleepy]. *)
Record Sleep := mkSleep {
  sleepState : SleepState;
  timeLastSleepy : Q
}.

(** A body.  [rot] is [Some _] exactly for a [RigidBody]; both tests of the
    source, [body instanceof RigidBody] and [b.angularVelocity], read it. *)
Record Body := mkBody {
  entry : Entry;
  lin : Linear;
  rot : option Rotational;
  phys : Physical;
  sleep : Sleep
}.

Definition on_entry (f : Entry → Entry) (b : Body) : Body :=
  mkBody (f (entry b)) (lin b) (rot b) (phys b) (sleep b).
Definition on_lin (f : Linear → Linear) (b : Body) : Body :=
  mkBody (entry b) (f (lin b)) (rot b) (phys b) (sleep b).
Definition on_rot (f : Rotational → Rotational) (b : Body) : Body :=
  mkBody (entry b) (lin b) (f <$> rot b) (phys b) (sleep b).
Definition on_sleep (f : Sleep → Sleep) (b : Body) : Body :=
  mkBody (entry b) (lin b) (rot b) (phys b) (f (sleep b)).

Definition set_id (v : Z) (e : Entry) : Entry := mkEntry v (b_index e) (b_world e).
Definition set_index (v : Z) (e : Entry) : Entry := mkEntry (b_id e) v (b_world e).
Definition set_world (v : option WorldId) (e : Entry) : Entry := mkEntry (b_id e) (b_index e) v.

Definition set_position (v : Vec3) (l : Linear) : Linear :=
  mkLinear v (velocity l) (initPosition l) (initVelocity l) (force l).
Definition set_velocity (v : Vec3) (l : Linear) : Linear :=
  mkLinear (position l) v (initPosition l) (initVelocity l) (force l).
Definition set_initPosition (v : Vec3) (l : Linear) : Linear :=
  mkLinear (position l) (velocity l) v (initVelocity l) (force l).
Definition set_initVelocity (v : Vec3) (l : Linear) : Linear :=
  mkLinear (position l) (velocity l) (initPosition l) v (force l).
Definition set_force (v : Vec3) (l : Linear) : Linear :=
  mkLinear (position l) (velocity l) (initPosition l) (initVelocity l) v.

Definition set_angularVelocity (v : Vec3) (r : Rotational) : Rotational :=
  mkRotational v (quaternion r) (initAngularVelocity r) (initQuaternion r) (tau r) (invInertia r).
Definition set_quaternion (v : Quaternion) (r : Rotational) : Rotational :=
  mkRotational (angularVelocity r) v (initAngularVelocity r) (initQuaternion r) (tau r) (invInertia r).
Definition set_initAngularVelocity (v : Vec3) (r : Rotational) : Rotational :=
  mkRotational (angularVelocity r) (quaternion r) v (initQuaternion r) (tau r) (invInertia r).
Definition set_initQuaternion (v : Quaternion) (r : Rotational) : Rotational :=
  mkRotational (angularVelocity r) (quaternion r) (initAngularVelocity r) v (tau r) (invInertia r).
Definition set_tau (v : Vec3) (r : Rotational) : Rotational :=
  mkRotational (angularVelocity r) (quaternion r) (initAngularVelocity r) (initQuaternion r) v (invInertia r).

Definition set_sleepState (v : SleepState) (s : Sleep) : Sleep := mkSleep v (timeLastSleepy s).
Definition set_timeLastSleepy (v : Q) (s : Sleep) : Sleep := mkSleep (sleepState s) v.

(** Modelled from the spec: [Body.prototype.wakeUp] and
    [Body.prototype.isSleeping] are not part of the source file.  A sleeping
    body is excluded from integration until it is disturbed; [wakeUp] ends
    that state and touches nothing else. *)
Definition wakeUp (b : Body) : Body := on_sleep (set_sleepState AWAKE) b.

Definition isSleeping (b : Body) : bool :=
  match sleepState (sleep b) with SLEEPING => true | _ => false end.

(** A material: [id] is [-1] until the material is registered. *)
Record Material := mkMaterial { m_id : Z }.

(** A contact material: its two materials, [friction], [restitution],
    [contactEquationStiffness], [contactEquationRegularizationTime], [id]. *)
Record ContactMaterial := mkContactMaterial {
  cm_id : Z;
  cm_materials : ref * ref;
  friction : Q;
  restitution : Q;
  contactEquationStiffness : Q;
  contactEquationRegularizationTime : Q
}.

Definition set_cm_id (v : Z) (c : ContactMaterial) : ContactMaterial :=
  mkContactMaterial v (cm_materials c) (friction c) (restitution c)
    (contactEquationStiffness c) (contactEquationRegularizationTime c).

(** A contact equation as the contact generator returns it and [step]
    annotates it. *)
Record ContactEquation := mkContact {
  c_bi : ref;
  c_bj : ref;
  c_ri : Vec3;
  c_rj : Vec3;
  c_ni : Vec3;
  c_restitution : Q;
  c_penetration : Q;
  c_stiffness : Q;
  c_regularizationTime : Q
}.

(** A friction equation: the fields [step] writes. *)
Record FrictionEquation := mkFriction {
  f_bi : ref;
  f_bj : ref;
  f_minForce : Q;
  f_maxForce : Q;
  f_ri : Vec3;
  f_rj : Vec3;
  f_t : Vec3
}.

(** A user constraint: its [id] and the equations it owns (opaque handles). *)
Record Constraint := mkConstraint { k_id : Z; k_equations : list nat }.

(** What the solver is handed. *)
Inductive Equation :=
| EqContact (c : ContactEquation)
| EqFriction (f : FrictionEquation)
| EqUser (e : nat).

(** ** The collision matrix ([collision/ArrayCollisionMatrix]) *)

(** Modelled from the spec: [ArrayCollisionMatrix.js] is not part of the
    source file.  The matrix is a symmetric boolean relation over pairs of
    body ids, stored once per unordered pair under the canonical order
    (larger id first), and it is resized whenever the body count changes. *)
Record CollisionMatrix := mkMatrix {
  numObjectsOf : Z;
  touching : gset (Z * Z)
}.

Definition canonical (a b : Z) : Z * Z := if a <? b then (b, a) else (a, b).

Definition pair_key (a b : Body) : Z * Z :=
  canonical (b_id (entry a)) (b_id (entry b)).

Definition matrix_get (m : CollisionMatrix) (a b : Body) : bool :=
  bool_decide (pair_key a b ∈ touching m).

Definition matrix_set (m : CollisionMatrix) (a b : Body) (flag : bool) : CollisionMatrix :=
  mkMatrix (numObjectsOf m)
    (if flag then {[ pair_key a b ]} ∪ touching m else touching m ∖ {[ pair_key a b ]}).

Definition matrix_reset (m : CollisionMatrix) : CollisionMatrix :=
  mkMatrix (numObjectsOf m) ∅.

Definition setNumObjects (n : Z) (m : CollisionMatrix) : CollisionMatrix :=
  mkMatrix n (touching m).

(** ** The trace of calls that leave the world *)

Inductive Event :=
| AddBodyEvent (body : ref)                 (* dispatchEvent(addBodyEvent) *)
| RemoveBodyEvent (body : ref)              (* dispatchEvent(removeBodyEvent) *)
| CollideEvent (target other : ref) (contact : ContactEquation)
                                            (* target.dispatchEvent(collideEvent) *)
| WakeUpCall (body : ref)                   (* body.wakeUp() *)
| PreStepEvent
| PostStepEvent
| NormalizeCall (body : ref)                (* quat.normalize() *)
| NormalizeFastCall (body : ref).           (* quat.normalizeFast() *)

(** ** The world *)

(** Configuration fields, which no method of [World.js] assigns after the
    constructor: [allowSleep], [quatNormalizeSkip], [quatNormalizeFast],
    [gravity], [default_dt], [last_dt]. *)
Record Settings := mkSettings {
  self : WorldId;
  allowSleep : bool;
  quatNormalizeSkip : Z;
  quatNormalizeFast : bool;
  gravity : Vec3;
  default_dt : Q;
  last_dt : Q
}.

Record Clock := mkClock { time : Q; stepnumber : Z }.

Record Registry := mkRegistry {
  nextId : Z;
  bodies : list ref;
  constraints : list Constraint
}.

Record Collision := mkCollision {
  collisionMatrix : CollisionMatrix;
  collisionMatrixPrevious : CollisionMatrix
}.

Record MaterialTable := mkTable {
  materials : list ref;
  contactmaterials : list ref;
  mats2cmat : list (option Z);
  defaultContactMaterial : ContactMaterial
}.

(** [contacts], [frictionEquations], the equation list of [this.solver]
    (filled by [addEquation], emptied by [removeAllEquations]) and the two
    module-level pools [World_step_frictionEquationPool] and
    [World_step_oldContacts]. *)
Record Equations := mkEquations {
  contacts : list ContactEquation;
  frictionEquations : list FrictionEquation;
  solverEquations : list Equation;
  frictionEquationPool : list FrictionEquation;
  oldContacts : list ContactEquation
}.

(** The object store. *)
Record Heap := mkHeap {
  body : ref → Body;
  materialOf : ref → Material;
  contactMaterialOf : ref → ContactMaterial
}.

Record World := mkWorld {
  settings : Settings;
  clock : Clock;
  registry : Registry;
  collision : Collision;
  table : MaterialTable;
  equations : Equations;
  heap : Heap;
  trace : list Event
}.

Definition on_clock (f : Clock → Clock) (w : World) : World :=
  mkWorld (settings w) (f (clock w)) (registry w) (collision w) (table w) (equations w) (heap w) (trace w).
Definition on_registry (f : Registry → Registry) (w : World) : World :=
  mkWorld (settings w) (clock w) (f (registry w)) (collision w) (table w) (equations w) (heap w) (trace w).
Definition on_collision (f : Collision → Collision) (w : World) : World :=
  mkWorld (settings w) (clock w) (registry w) (f (collision w)) (table w) (equations w) (heap w) (trace w).
Definition on_table (f : MaterialTable → MaterialTable) (w : World) : World :=
  mkWorld (settings w) (clock w) (registry w) (collision w) (f (table w)) (equations w) (heap w) (trace w).
Definition on_equations (f : Equations → Equations) (w : World) : World :=
  mkWorld (settings w) (clock w) (registry w) (collision w) (table w) (f (equations w)) (heap w) (trace w).
Definition on_heap (f : Heap → Heap) (w : World) : World :=
  mkWorld (settings w) (clock w) (registry w) (collision w) (table w) (equations w) (f (heap w)) (trace w).

(** [target.dispatchEvent(e)]: listeners observe, they are not part of the
    world; the dispatch is recorded. *)
Definition dispatchEvent (e : Event) (w : World) : World :=
  mkWorld (settings w) (clock w) (registry w) (collision w) (table w) (equations w) (heap w)
    (trace w ++ [e]).

Definition set_time (v : Q) (c : Clock) : Clock := mkClock v (stepnumber c).
Definition set_stepnumber (v : Z) (c : Clock) : Clock := mkClock (time c) v.

Definition set_nextId (v : Z) (r : Registry) : Registry := mkRegistry v (bodies r) (constraints r).
Definition set_bodies (v : list ref) (r : Registry) : Registry := mkRegistry (nextId r) v (constraints r).
Definition set_constraints (v : list Constraint) (r : Registry) : Registry :=
  mkRegistry (nextId r) (bodies r) v.

Definition set_collisionMatrix (v : CollisionMatrix) (c : Collision) : Collision :=
  mkCollision v (collisionMatrixPrevious c).
Definition set_collisionMatrixPrevious (v : CollisionMatrix) (c : Collision) : Collision :=
  mkCollision (collisionMatrix c) v.

Definition set_materials (v : list ref) (t : MaterialTable) : MaterialTable :=
  mkTable v (contactmaterials t) (mats2cmat t) (defaultContactMaterial t).
Definition set_contactmaterials (v : list ref) (t : MaterialTable) : MaterialTable :=
  mkTable (materials t) v (mats2cmat t) (defaultContactMaterial t).
Definition set_mats2cmat (v : list (option Z)) (t : MaterialTable) : MaterialTable :=
  mkTable (materials t) (contactmaterials t) v (defaultContactMaterial t).

Definition set_contacts (v : list ContactEquation) (e : Equations) : Equations :=
  mkEquations v (frictionEquations e) (solverEquations e) (frictionEquationPool e) (oldContacts e).
Definition set_frictionEquations (v : list FrictionEquation) (e : Equations) : Equations :=
  mkEquations (contacts e) v (solverEquations e) (frictionEquationPool e) (oldContacts e).
Definition set_solverEquations (v : list Equation) (e : Equations) : Equations :=
  mkEquations (contacts e) (frictionEquations e) v (frictionEquationPool e) (oldContacts e).
Definition set_frictionEquationPool (v : list FrictionEquation) (e : Equations) : Equations :=
  mkEquations (contacts e) (frictionEquations e) (solverEquations e) v (oldContacts e).
Definition set_oldContacts (v : list ContactEquation) (e : Equations) : Equations :=
  mkEquations (contacts e) (frictionEquations e) (solverEquations e) (frictionEquationPool e) v.

(** In-place mutation of one object of the store. *)
Definition update {A} (r : ref) (f : A → A) (h : ref → A) : ref → A :=
  fun r' => if decide (r' = r) then f (h r') else h r'.

Definition on_body (r : ref) (f : Body → Body) (w : World) : World :=
  on_heap (fun h => mkHeap (update r f (body h)) (materialOf h) (contactMaterialOf h)) w.
Definition on_material (r : ref) (f : Material → Material) (w : World) : World :=
  on_heap (fun h => mkHeap (body h) (update r f (materialOf h)) (contactMaterialOf h)) w.
Definition on_contactMaterial (r : ref) (f : ContactMaterial → ContactMaterial) (w : World) : World :=
  on_heap (fun h => mkHeap (body h) (materialOf h) (update r f (contactMaterialOf h))) w.
Definition set_bodyHeap (b : ref → Body) (w : World) : World :=
  on_heap (fun h => mkHeap b (materialOf h) (contactMaterialOf h)) w.

(** [solver.addEquation(eq)]. *)
Definition addEquation (e : Equation) (w : World) : World :=
  on_equations (fun q => set_solverEquations (solverEquations q ++ [e]) q) w.

(** ** Collaborators

    Everything [step] calls that lives outside [World.js]: constants of
    [Body], methods of [Vec3] and [Quaternion], [Math.pow], the subsystems,
    the broadphase, the contact generator, the solver, the optional
    [preStep]/[postStep] callables of a body and [sleepTick].  They are
    parameters; a collaborator that works on bodies receives the body store
    and returns the new one. *)
Class Env := {
  DYNAMIC : Z;
  KINEMATIC : Z;
  norm : Vec3 → Q;
  tangents : Vec3 → Vec3 * Vec3;
  pow : Q → Q → Q;
  qmult : Quaternion → Quaternion → Quaternion;
  normalize : Quaternion → Quaternion;
  normalizeFast : Quaternion → Quaternion;
  subsystems_update : (ref → Body) → (ref → Body);
  collisionPairs : list ref → (ref → Body) → list ref * list ref;
  getContacts : list ref → list ref → list ref → (ref → Body) →
                list ContactEquation → list ContactEquation * list ContactEquation;
  solve : Q → list Equation → list ref → (ref → Body) → (ref → Body);
  preStep : ref → option (Body → Body);
  postStep : ref → option (Body → Body);
  sleepTick : Q → Body → Body
}.

Module World.

(** [new World()], given the object store it is created in, its own identity
    and the contact material the constructor builds for
    [defaultContactMaterial] (friction [0.3], restitution [0]; stiffness and
    regularisation time are the defaults of [ContactMaterial]). *)
Definition default_cm (dm : ref) (stiffness regularization : Q) : ContactMaterial :=
  mkContactMaterial (-1) (dm, dm) (3 # 10) 0 stiffness regularization.

Definition create (me : WorldId) (h : Heap) (dcm : ContactMaterial) : World :=
  mkWorld
    (mkSettings me false 0 false Vec3_zero (1 # 60) (1 # 60))
    (mkClock 0 0)
    (mkRegistry 0 [] [])
    (mkCollision (mkMatrix 0 ∅) (mkMatrix 0 ∅))
    (mkTable [] [] [] dcm)
    (mkEquations [] [] [] [] [])
    h [].

(** [numObjects]. *)
Definition numObjects (w : World) : Z := js_length (bodies (registry w)).

(** [id]: [return this.nextId++]. *)
Definition id (w : World) : Z * World :=
  (nextId (registry w), on_registry (set_nextId (nextId (registry w) + 1)) w).

(** [collisionMatrixTick]. *)
Definition collisionMatrixTick (w : World) : World :=
  let temp := collisionMatrixPrevious (collision w) in
  let w := on_collision (set_collisionMatrixPrevious (collisionMatrix (collision w))) w in
  let w := on_collision (set_collisionMatrix temp) w in
  on_collision (fun c => set_collisionMatrix (matrix_reset (collisionMatrix c)) c) w.

(** [add(body)].  There is no guard and no [throw]: the function runs to
    completion for every body. *)
Definition add (b : ref) (w : World) : World :=
  let '(i, w) := id w in
  let w := on_body b (on_entry (set_id i)) w in
  let w := on_body b (on_entry (set_index (js_length (bodies (registry w))))) w in
  let w := on_registry (fun r => set_bodies (bodies r ++ [b]) r) w in
  let w := on_body b (on_entry (set_world (Some (self (settings w))))) w in
  let w := on_body b (on_lin (fun l => set_initPosition (copy (position l) (initPosition l)) l)) w in
  let w := on_body b (on_lin (fun l => set_initVelocity (copy (velocity l) (initVelocity l)) l)) w in
  let w := on_body b (on_sleep (set_timeLastSleepy (time (clock w)))) w in
  let w := on_body b (on_rot (fun r =>
             set_initQuaternion (copy (quaternion r) (initQuaternion r))
               (set_initAngularVelocity (copy (angularVelocity r) (initAngularVelocity r)) r))) w in
  let w := on_collision (fun c =>
             set_collisionMatrix (setNumObjects (js_length (bodies (registry w))) (collisionMatrix c)) c) w in
  dispatchEvent (AddBodyEvent b) w.

(** [addConstraint(c)]. *)
Definition addConstraint (c : Constraint) (w : World) : World :=
  let n := length (constraints (registry w)) in
  let w := on_registry (fun r => set_constraints (constraints r ++ [c]) r) w in
  let '(i, w) := id w in
  on_registry (fun r => set_constraints (alter (fun k => mkConstraint i (k_equations k)) n (constraints r)) r) w.

(** The loop of [remove]: [for(var i=start; i<n; i++) bodies[i].index = i],
    with [k] iterations left.  Reading [.index] off a missing element throws
    ([None]). *)
Fixpoint reindex (k : nat) (i : Z) (w : World) : option World :=
  match k with
  | O => Some w
  | S k' =>
      match js_get (bodies (registry w)) i with
      | None => None
      | Some r => reindex k' (i + 1) (on_body r (on_entry (set_index i)) w)
      end
  end.

(** [remove(body)]. *)
Definition remove (b : ref) (w : World) : option World :=
  let w := on_body b (on_entry (set_world None)) w in
  let n := numObjects w - 1 in
  let start := b_index (entry (body (heap w) b)) in
  let w := on_registry (fun r => set_bodies (js_splice1 (bodies r) start) r) w in
  match reindex (Z.to_nat (n - start)) start w with
  | None => None
  | Some w =>
      let w := on_collision (fun c => set_collisionMatrix (setNumObjects n (collisionMatrix c)) c) w in
      Some (dispatchEvent (RemoveBodyEvent b) w)
  end.

(** A sequence of registry operations, as a caller issues them. *)
Inductive op := Add (b : ref) | Remove (b : ref).

Fixpoint run (ops : list op) (w : World) : option World :=
  match ops with
  | [] => Some w
  | Add b :: rest => run rest (add b w)
  | Remove b :: rest =>
      match remove b w with
      | None => None
      | Some w' => run rest w'
      end
  end.

(** [b] is a current member of the registry. *)
Definition member (b : ref) (w : World) : bool := bool_decide (b ∈ bodies (registry w)).

(** Every [Remove] of the sequence names a current member. *)
Fixpoint removes_members (ops : list op) (w : World) : bool :=
  match ops with
  | [] => true
  | Add b :: rest => removes_members rest (add b w)
  | Remove b :: rest =>
      member b w &&
      match remove b w with
      | None => true
      | Some w' => removes_members rest w'
      end
  end.

(** Moreover every [Add] of the sequence names a body that is not a member. *)
Fixpoint adds_fresh (ops : list op) (w : World) : bool :=
  match ops with
  | [] => true
  | Add b :: rest => negb (member b w) && adds_fresh rest (add b w)
  | Remove b :: rest =>
      match remove b w with
      | None => true
      | Some w' => adds_fresh rest w'
      end
  end.

(** The registry invariant: the body stored at position [i] records index
    [i]. *)
Definition indexed (w : World) : Prop :=
  ∀ (i : nat) (r : ref), bodies (registry w) !! i = Some r →
    b_index (entry (body (heap w) r)) = Z.of_nat i.

(** [addMaterial(m)]. *)
Definition addMaterial (m : ref) (w : World) : World :=
  if m_id (materialOf (heap w) m) =? -1 then
    let n := js_length (materials (table w)) in
    let w := on_table (fun t => set_materials (materials t ++ [m]) t) w in
    let w := on_material m (fun _ => mkMaterial (js_length (materials (table w)) - 1)) w in
    on_table (fun t => set_mats2cmat (mats2cmat t ++ replicate (Z.to_nat (2 * n + 1)) (Some (-1))) t) w
  else w.

(** [addContactMaterial(cmat)]. *)
Definition addContactMaterial (cmat : ref) (w : World) : World :=
  let m0 := fst (cm_materials (contactMaterialOf (heap w) cmat)) in
  let m1 := snd (cm_materials (contactMaterialOf (heap w) cmat)) in
  let w := addMaterial m0 w in
  let w := addMaterial m1 w in
  let id0 := m_id (materialOf (heap w) m0) in
  let id1 := m_id (materialOf (heap w) m1) in
  let i := if id1 <? id0 then id0 else id1 in
  let j := if id1 <? id0 then id1 else id0 in
  let w := on_table (fun t => set_contactmaterials (contactmaterials t ++ [cmat]) t) w in
  let w := on_contactMaterial cmat (set_cm_id (js_length (contactmaterials (table w)) - 1)) w in
  on_table (fun t =>
    set_mats2cmat (js_set (mats2cmat t) (i + js_length (materials t) * j)
                     (cm_id (contactMaterialOf (heap w) cmat))) t) w.

(** [getContactMaterial(m1, m2)].  An argument that is not a [Material]
    (a body without material) is [None]; so is the result [undefined]. *)
Definition getContactMaterial (m1 m2 : option ref) (w : World) : option ref :=
  match m1, m2 with
  | Some a, Some b =>
      let id1 := m_id (materialOf (heap w) a) in
      let id2 := m_id (materialOf (heap w) b) in
      let i := if id1 <? id2 then id2 else id1 in
      let j := if id1 <? id2 then id1 else id2 in
      match js_get (mats2cmat (table w)) (i + j * js_length (materials (table w))) with
      | Some (Some k) => js_get (contactmaterials (table w)) k
      | _ => None
      end
  | _, _ => None
  end.

(** A sequence of registrations, as a caller issues them. *)
Inductive table_op := AddMaterial (m : ref) | AddContactMaterial (cmat : ref).

Definition run_table (ops : list table_op) (w : World) : World :=
  fold_left (fun w o => match o with
                        | AddMaterial m => addMaterial m w
                        | AddContactMaterial cmat => addContactMaterial cmat w
                        end) ops w.

(** ** [step] *)

Section Step.
Context `{Env}.

(** The step size in force after [if(dt===undefined){ dt = this.last_dt ||
    this.default_dt; }]. *)
Definition step_dt (dt : option Q) (w : World) : Q :=
  match dt with
  | Some d => d
  | None => js_or (last_dt (settings w)) (default_dt (settings w))
  end.

(** A [for(i=0; i!==N; i++)] loop over [bodies[i]]. *)
Definition for_bodies (f : ref → World → World) (w : World) : World :=
  fold_left (fun w r => f r w) (bodies (registry w)) w.

Definition has_flag (b : Body) (flag : Z) : bool :=
  negb (Z.land (motionstate (phys b)) flag =? 0).

Definition plus_scaled (a : Vec3) (k : Q) (b : Vec3) : Vec3 :=
  mkVec3 (v_x a + k * v_x b) (v_y a + k * v_y b) (v_z a + k * v_z b).

(** "Add gravity to all objects". *)
Definition add_gravity (r : ref) (w : World) : World :=
  let bi := body (heap w) r in
  if has_flag bi DYNAMIC then
    let g := gravity (settings w) in
    on_body r (on_lin (fun l => set_force (plus_scaled (force l) (mass (phys bi)) g) l)) w
  else w.

(** The resolved contact material of a pair of bodies. *)
Definition resolve (bi bj : Body) (w : World) : ContactMaterial :=
  match getContactMaterial (material (phys bi)) (material (phys bj)) w with
  | Some r => contactMaterialOf (heap w) r
  | None => defaultContactMaterial (table w)
  end.

(** The gap [g = ( xj + rj - xi - ri ) .dot ( ni )]. *)
Definition gap (bi bj : Body) (c : ContactEquation) : Q :=
  let xi := position (lin bi) in
  let xj := position (lin bj) in
  dot (mkVec3 (v_x xj + v_x (c_rj c) - v_x xi - v_x (c_ri c))
              (v_y xj + v_y (c_rj c) - v_y xi - v_y (c_ri c))
              (v_z xj + v_z (c_rj c) - v_z xi - v_z (c_ri c)))
      (c_ni c).

(** [var reducedMass = (bi.invMass + bj.invMass);
     if(reducedMass > 0){ reducedMass = 1/reducedMass; }]. *)
Definition reducedMass (bi bj : Body) : Q :=
  let m := (invMass (phys bi) + invMass (phys bj))%Q in
  if Qltb 0 m then (1 / m)%Q else m.

(** [pool.length ? pool.pop() : new FrictionEquation(bi,bj,slipForce)]: the
    equation and what is left of the pool.  A new equation has bounds
    [-slipForce], [slipForce] and zero vectors. *)
Definition take_friction (pool : list FrictionEquation) (bi bj : ref) (slip : Q)
  : FrictionEquation * list FrictionEquation :=
  match last pool with
  | Some f => (f, take (length pool - 1)%nat pool)
  | None => (mkFriction bi bj (- slip) slip Vec3_zero Vec3_zero Vec3_zero, pool)
  end.

(** The assignments to a friction equation [c1] (or [c2]) of a contact [c]. *)
Definition fill_friction (f : FrictionEquation) (c : ContactEquation) (lo hi : Q) (t : Vec3)
  : FrictionEquation :=
  mkFriction (c_bi c) (c_bj c) lo hi
    (copy (c_ri c) (f_ri f)) (copy (c_rj c) (f_rj f)) t.

(** The branch taken when both bodies have [collisionResponse]. *)
Definition respond (c : ContactEquation) (cm : ContactMaterial) (g : Q) (w : World)
  : ContactEquation * World :=
  let bi := body (heap w) (c_bi c) in
  let bj := body (heap w) (c_bj c) in
  let c := mkContact (c_bi c) (c_bj c) (c_ri c) (c_rj c) (c_ni c)
             (restitution cm) g (contactEquationStiffness cm)
             (contactEquationRegularizationTime cm) in
  let w := addEquation (EqContact c) w in
  let mu := friction cm in
  if Qltb 0 mu then
    let mug := (mu * norm (gravity (settings w)))%Q in
    let rm := reducedMass bi bj in
    let '(c1, pool) := take_friction (frictionEquationPool (equations w)) (c_bi c) (c_bj c) (mug * rm) in
    let '(c2, pool) := take_friction pool (c_bi c) (c_bj c) (mug * rm) in
    let c1 := fill_friction c1 c (- mug * rm) (mug * rm) (fst (tangents (c_ni c))) in
    let c2 := fill_friction c2 c (- mug * rm) (mug * rm) (snd (tangents (c_ni c))) in
    let w := on_equations (fun q =>
               set_frictionEquations (frictionEquations q ++ [c1; c2])
                 (set_frictionEquationPool pool q)) w in
    (c, addEquation (EqFriction c2) (addEquation (EqFriction c1) w))
  else (c, w).

(** The body of the loop over the contacts: the annotated contact and the
    new world. *)
Definition contact_iteration (c : ContactEquation) (w : World) : ContactEquation * World :=
  let bi := body (heap w) (c_bi c) in
  let bj := body (heap w) (c_bj c) in
  let cm := resolve bi bj w in
  let g := gap bi bj c in
  if Qltb g 0 then
    let '(c, w) :=
      if collisionResponse (phys bi) && collisionResponse (phys bj)
      then respond c cm g w else (c, w) in
    let w := on_collision (fun m => set_collisionMatrix (matrix_set (collisionMatrix m) bi bj true) m) w in
    if negb (eqb (matrix_get (collisionMatrix (collision w)) bi bj)
                 (matrix_get (collisionMatrixPrevious (collision w)) bi bj))
    then
      let w := dispatchEvent (CollideEvent (c_bi c) (c_bj c) c) w in
      let w := dispatchEvent (CollideEvent (c_bj c) (c_bi c) c) w in
      let w := dispatchEvent (WakeUpCall (c_bi c)) (on_body (c_bi c) wakeUp w) in
      let w := dispatchEvent (WakeUpCall (c_bj c)) (on_body (c_bj c) wakeUp w) in
      (c, w)
    else (c, w)
  else (c, w).

(** [for(var k=0; k!==ncontacts; k++)]: each contact is annotated in place. *)
Fixpoint contact_loop (cs : list ContactEquation) (w : World) : list ContactEquation * World :=
  match cs with
  | [] => ([], w)
  | c :: rest =>
      let '(c', w) := contact_iteration c w in
      let '(rest', w) := contact_loop rest w in
      (c' :: rest', w)
  end.

(** Everything [step] does before the loop over the contacts: gravity,
    subsystems, broadphase, [collisionMatrixTick], contact generation and
    the transfer of last step's friction equations to the pool. *)
Definition before_contacts (w : World) : World :=
  let w := for_bodies add_gravity w in
  let w := set_bodyHeap (subsystems_update (body (heap w))) w in
  let '(p1, p2) := collisionPairs (bodies (registry w)) (body (heap w)) in
  let w := collisionMatrixTick w in
  let old := (oldContacts (equations w) ++ contacts (equations w))%list in
  let '(cs, old) := getContacts p1 p2 (bodies (registry w)) (body (heap w)) old in
  let w := on_equations (fun q => set_contacts cs (set_oldContacts old q)) w in
  on_equations (fun q =>
    set_frictionEquations []
      (set_frictionEquationPool (frictionEquationPool q ++ frictionEquations q) q)) w.

(** The loop over the contacts, writing the annotated contacts back. *)
Definition make_contact_constraints (w : World) : World :=
  let '(cs, w) := contact_loop (contacts (equations w)) w in
  on_equations (set_contacts cs) w.

(** "Add user-added constraints": [c.update()] works inside the constraint. *)
Definition add_constraints (w : World) : World :=
  fold_left (fun w k => fold_left (fun w e => addEquation (EqUser e) w) (k_equations k) w)
    (constraints (registry w)) w.

(** [solver.solve(dt,this)] followed by [solver.removeAllEquations()]. *)
Definition solve_and_clear (dt : Q) (w : World) : World :=
  let w := set_bodyHeap (solve dt (solverEquations (equations w)) (bodies (registry w)) (body (heap w))) w in
  on_equations (set_solverEquations []) w.

Definition scale (k : Q) (v : Vec3) : Vec3 := mkVec3 (k * v_x v) (k * v_y v) (k * v_z v).

(** "Apply damping". *)
Definition damp (dt : Q) (r : ref) (w : World) : World :=
  let bi := body (heap w) r in
  if has_flag bi DYNAMIC then
    let ld := pow (1 - linearDamping (phys bi)) dt in
    let ad := pow (1 - angularDamping (phys bi)) dt in
    on_body r (fun b =>
      on_rot (fun o => set_angularVelocity (scale ad (angularVelocity o)) o)
        (on_lin (fun l => set_velocity (scale ld (velocity l)) l) b)) w
  else w.

(** [if(bi.preStep){ bi.preStep.call(bi); }] and its [postStep] twin. *)
Definition call (f : ref → option (Body → Body)) (r : ref) (w : World) : World :=
  match f r with
  | Some g => on_body r g w
  | None => w
  end.

(** [var quatNormalize = stepnumber % (this.quatNormalizeSkip+1) === 0]. *)
Definition quatNormalize (w : World) : bool :=
  match js_rem (stepnumber (clock w)) (quatNormalizeSkip (settings w) + 1) with
  | Some 0 => true
  | _ => false
  end.

(** The body is moved by the integrator: [(b.motionstate &
    DYNAMIC_OR_KINEMATIC) && !b.isSleeping()]. *)
Definition integrated (b : Body) : bool :=
  has_flag b (Z.lor DYNAMIC KINEMATIC) && negb (isSleeping b).

(** The quaternion after [quat += half_dt * (w * quat)], [w] being the
    angular velocity as a pure quaternion. *)
Definition advance (dt : Q) (o : Rotational) : Quaternion :=
  let av := angularVelocity o in
  let q := quaternion o in
  let wq := qmult (mkQuat (v_x av) (v_y av) (v_z av) 0) q in
  let half_dt := (dt * (1 # 2))%Q in
  mkQuat (q_x q + half_dt * q_x wq) (q_y q + half_dt * q_y wq)
         (q_z q + half_dt * q_z wq) (q_w q + half_dt * q_w wq).

(** The rotational part of the leap frog for one body: the new angular
    velocity, then the new quaternion, normalised when [qn] is set. *)
Definition integrate_rot (dt : Q) (qn fast : bool) (o : Rotational) : Rotational :=
  let av := angularVelocity o in
  let o := set_angularVelocity
             (mkVec3 (v_x av + v_x (tau o) * v_x (invInertia o) * dt)
                     (v_y av + v_y (tau o) * v_y (invInertia o) * dt)
                     (v_z av + v_z (tau o) * v_z (invInertia o) * dt)) o in
  let q := advance dt o in
  set_quaternion (if qn then if fast then normalizeFast q else normalize q else q) o.

(** The linear part: [velo += force * invMass * dt; pos += velo * dt]. *)
Definition integrate_lin (dt : Q) (invm : Q) (l : Linear) : Linear :=
  let f := force l in
  let v := velocity l in
  let v := mkVec3 (v_x v + v_x f * invm * dt) (v_y v + v_y f * invm * dt)
                  (v_z v + v_z f * invm * dt) in
  let p := position l in
  set_position (mkVec3 (v_x p + v_x v * dt) (v_y p + v_y v * dt) (v_z p + v_z v * dt))
    (set_velocity v l).

(** The calls to [normalize]/[normalizeFast] one body causes. *)
Definition normalize_calls (qn fast : bool) (r : ref) (b : Body) : list Event :=
  if integrated b && bool_decide (is_Some (rot b)) && qn
  then [if fast then NormalizeFastCall r else NormalizeCall r]
  else [].

(** One iteration of the "Leap frog" loop.  The flags raised on the shape
    and the bounding box of the body are not part of the model. *)
Definition integrate (dt : Q) (qn fast : bool) (r : ref) (w : World) : World :=
  let b := body (heap w) r in
  let w :=
    if integrated b then
      on_body r (fun b =>
        on_rot (integrate_rot dt qn fast)
          (on_lin (integrate_lin dt (invMass (phys b))) b)) w
    else w in
  let w := fold_left (fun w e => dispatchEvent e w) (normalize_calls qn fast r b) w in
  on_body r (fun b => on_rot (set_tau Vec3_zero) (on_lin (set_force Vec3_zero) b)) w.

(** Everything [step] does before the leap frog, given the step size. *)
Definition before_integration (dt : Q) (w : World) : World :=
  let w := make_contact_constraints (before_contacts w) in
  let w := add_constraints w in
  let w := solve_and_clear dt w in
  let w := for_bodies (damp dt) w in
  let w := dispatchEvent PreStepEvent w in
  for_bodies (call preStep) w.

(** [step(dt)].  Profiling and the refresh of the world-frame inertia
    (fields this model does not carry) are left out. *)
Definition step (dt : option Q) (w : World) : World :=
  let dt := step_dt dt w in
  let w := before_integration dt w in
  let qn := quatNormalize w in
  let fast := quatNormalizeFast (settings w) in
  let w := for_bodies (integrate dt qn fast) w in
  let w := on_clock (fun c => set_stepnumber (stepnumber c + 1) (set_time (time c + dt) c)) w in
  let w := dispatchEvent PostStepEvent w in
  let w := for_bodies (call postStep) w in
  if allowSleep (settings w)
  then for_bodies (fun r w => on_body r (sleepTick (time (clock w))) w) w
  else w.


(** *** Vocabulary for the properties of [step] *)

(** What one call of [step] appends to the trace. *)
Definition step_events (dt : option Q) (w : World) : list Event :=
  drop (length (trace w)) (trace (step dt w)).

(** The contact penetrates: its gap is negative. *)
Definition penetrating (w : World) (c : ContactEquation) : bool :=
  Qltb (gap (body (heap w) (c_bi c)) (body (heap w) (c_bj c)) c) 0.

(** The pair of body ids a contact is filed under in the collision matrix. *)
Definition key_of (w : World) (c : ContactEquation) : Z * Z :=
  pair_key (body (heap w) (c_bi c)) (body (heap w) (c_bj c)).

(** The contact as the loop leaves it: annotated with the properties of the
    resolved contact material when it penetrates and both bodies respond to
    collisions, untouched otherwise. *)
Definition annotate (w : World) (c : ContactEquation) : ContactEquation :=
  let bi := body (heap w) (c_bi c) in
  let bj := body (heap w) (c_bj c) in
  let cm := resolve bi bj w in
  if penetrating w c && (collisionResponse (phys bi) && collisionResponse (phys bj))
  then mkContact (c_bi c) (c_bj c) (c_ri c) (c_rj c) (c_ni c)
         (restitution cm) (gap bi bj c) (contactEquationStiffness cm)
         (contactEquationRegularizationTime cm)
  else c.

(** What a first contact sets off: a collide event to each of the two
    bodies, then the wake-up of both. *)
Definition edge_events (c : ContactEquation) : list Event :=
  [CollideEvent (c_bi c) (c_bj c) c; CollideEvent (c_bj c) (c_bi c) c;
   WakeUpCall (c_bi c); WakeUpCall (c_bj c)].

(** Collide events and wake-ups. *)
Definition is_edge (e : Event) : bool :=
  match e with
  | CollideEvent _ _ _ | WakeUpCall _ => true
  | _ => false
  end.

(** Some contact of the world's contact list penetrates and is filed under
    the pair [p]. *)
Definition pair_penetrating (w : World) (p : Z * Z) : bool :=
  existsb (fun c => penetrating w c && bool_decide (key_of w c = p)) (contacts (equations w)).

(** The number of collide events dispatched to body [r]. *)
Definition collide_count (r : ref) (evs : list Event) : nat :=
  length (List.filter (fun e => match e with
                                | CollideEvent t _ _ => bool_decide (t = r)
                                | _ => false
                                end) evs).


(** The contact penetrates and both bodies respond to collisions: it gets a
    contact equation. *)
Definition responding (w : World) (c : ContactEquation) : bool :=
  penetrating w c
  && (collisionResponse (phys (body (heap w) (c_bi c)))
      && collisionResponse (phys (body (heap w) (c_bj c)))).

(** Moreover the resolved friction coefficient is positive: it gets friction
    equations. *)
Definition frictional (w : World) (c : ContactEquation) : bool :=
  responding w c
  && Qltb 0 (friction (resolve (body (heap w) (c_bi c)) (body (heap w) (c_bj c)) w)).

(** The contact penetrates and its pair is not in the previous collision
    matrix. *)
Definition rising (w : World) (c : ContactEquation) : bool :=
  penetrating w c
  && negb (bool_decide (key_of w c ∈ touching (collisionMatrixPrevious (collision w)))).

(** Body [r] is one of the two bodies of a rising contact of the world's
    contact list. *)
Definition hit (w : World) (r : ref) : bool :=
  existsb (fun c => rising w c && (bool_decide (r = c_bi c) || bool_decide (r = c_bj c)))
    (contacts (equations w)).

(** What "Add gravity to all objects" does to one body. *)
Definition pulled (g : Vec3) (b : Body) : Body :=
  if has_flag b DYNAMIC
  then on_lin (fun l => set_force (plus_scaled (force l) (mass (phys b)) g) l) b
  else b.

(** What one iteration of the leap frog does to its body: integrate it if
    it is dynamic or kinematic and awake, then clear force and torque. *)
Definition leapt (dt : Q) (qn fast : bool) (b : Body) : Body :=
  let b' := if integrated b
            then on_rot (integrate_rot dt qn fast)
                   (on_lin (integrate_lin dt (invMass (phys b))) b)
            else b in
  on_rot (set_tau Vec3_zero) (on_lin (set_force Vec3_zero) b').

(** The equations a user constraint contributes, over all constraints. *)
Definition constraint_equations (w : World) : list nat :=
  flat_map k_equations (constraints (registry w)).

End Step.

End World.

(** ** Concrete collaborators and worlds

    A world at rest: no subsystems, no damping, a solver that leaves the
    bodies alone, a broadphase that pairs the first body of the registry
    with the second, and a contact generator that reports two contact
    points per pair (contact normal along the y axis).  The vector functions
    are exact on the inputs used below: vectors along one axis, the unit
    quaternion, a damping factor of one. *)

Definition axis_norm (v : Vec3) : Q := (Qabs (v_x v) + Qabs (v_y v) + Qabs (v_z v))%Q.

Definition hamilton (a b : Quaternion) : Quaternion :=
  mkQuat (q_w a * q_x b + q_x a * q_w b + q_y a * q_z b - q_z a * q_y b)
         (q_w a * q_y b - q_x a * q_z b + q_y a * q_w b + q_z a * q_x b)
         (q_w a * q_z b + q_x a * q_y b - q_y a * q_x b + q_z a * q_w b)
         (q_w a * q_w b - q_x a * q_x b - q_y a * q_y b - q_z a * q_z b).

Definition first_pair (bs : list ref) : list ref * list ref :=
  match bs with
  | a :: b :: _ => ([a], [b])
  | _ => ([], [])
  end.

Definition contact_at (a b : ref) (r : Vec3) : ContactEquation :=
  mkContact a b r r (mkVec3 0 1 0) 0 0 0 0.

Definition two_points (p1 p2 : list ref) : list ContactEquation :=
  flat_map (fun '(a, b) => [contact_at a b Vec3_zero; contact_at a b (mkVec3 1 0 0)])
    (zip p1 p2).

Definition rest_env : Env := {|
  DYNAMIC := 1;
  KINEMATIC := 4;
  norm := axis_norm;
  tangents := fun _ => (mkVec3 1 0 0, mkVec3 0 0 1);
  pow := fun _ _ => 1%Q;
  qmult := hamilton;
  normalize := fun q => q;
  normalizeFast := fun q => q;
  subsystems_update := fun h => h;
  collisionPairs := fun bs _ => first_pair bs;
  getContacts := fun p1 p2 _ _ old => (two_points p1 p2, old);
  solve := fun _ _ _ h => h;
  preStep := fun _ => None;
  postStep := fun _ => None;
  sleepTick := fun _ b => b
|}.

(** Body [r] of the example store: a dynamic rigid body of mass one, not in
    any world, placed at [(0, -r, 0)] with its stored initial position at the
    origin. *)
Definition ex_body (r : ref) : Body :=
  mkBody (mkEntry (-1) (-1) None)
    (mkLinear (mkVec3 0 (- inject_Z (Z.of_nat r)) 0) Vec3_zero Vec3_zero Vec3_zero Vec3_zero)
    (Some (mkRotational Vec3_zero (mkQuat 0 0 0 1) (mkVec3 1 0 0) (mkQuat 1 0 0 0)
             Vec3_zero (mkVec3 1 1 1)))
    (mkPhysical 1 1 1 true None 0 0)
    (mkSleep AWAKE 0).

(** Every material of the example store is unregistered; every contact
    material joins materials [1] and [2]. *)
Definition ex_heap : Heap :=
  mkHeap ex_body (fun _ => mkMaterial (-1))
    (fun _ => mkContactMaterial (-1) (1%nat, 2%nat) (1 # 2) 0 10000000 3).

Definition ex_world : World :=
  World.create 0%nat ex_heap (World.default_cm 0%nat 10000000 3).

(** The same world with gravity [(0, -10, 0)] and [quatNormalizeSkip = k]. *)
Definition ex_world_g (k : Z) : World :=
  mkWorld (mkSettings 0%nat false k false (mkVec3 0 (-10) 0) (1 # 60) (1 # 60))
    (clock ex_world) (registry ex_world) (collision ex_world) (table ex_world)
    (equations ex_world) (heap ex_world) (trace ex_world).

(** Bodies [0] and [1] added: body [1] sits one unit below body [0], so the
    generated contacts have gap [-1]. *)
Definition ex_two_bodies : World := World.add 1%nat (World.add 0%nat (ex_world_g 0)).


(** The same as [ex_two_bodies] with collision response disabled on
    body [1]. *)
Definition ex_ghost : World :=
  on_body 1%nat (fun b => mkBody (entry b) (lin b) (rot b)
                            (mkPhysical 1 1 1 false None 0 0) (sleep b)) ex_two_bodies.

(** A contact between body [0] and body [1] at their origins. *)
Definition ex_contact : ContactEquation := contact_at 0%nat 1%nat Vec3_zero.

(** ** Relations between worlds

    What an operation leaves alone, as the proofs below track it. *)

(** What [addMaterial] keeps: the contact materials, the filled part of the
    pair-index table and the id of every registered material. *)
Definition extends (w w' : World) : Prop :=
  contactmaterials (table w') = contactmaterials (table w)
  ∧ (∃ ext, mats2cmat (table w') = mats2cmat (table w) ++ ext)
  ∧ (∀ r, m_id (materialOf (heap w) r) ≠ -1 →
          m_id (materialOf (heap w') r) = m_id (materialOf (heap w) r)).

(** [w'] has the settings, the registry and the material table of [w]. *)
Definition static (w w' : World) : Prop :=
  settings w' = settings w
  ∧ registry w' = registry w
  ∧ table w' = table w
  ∧ materialOf (heap w') = materialOf (heap w)
  ∧ contactMaterialOf (heap w') = contactMaterialOf (heap w).

(** Moreover the clock, the collision matrices and the trace are those of
    [w]. *)
Definition quiet (w w' : World) : Prop :=
  static w w' ∧ clock w' = clock w ∧ collision w' = collision w ∧ trace w' = trace w.

(** The bodies of [w'] differ from those of [w] in their sleep state at
    most. *)
Definition same_bodies (w w' : World) : Prop :=
  ∀ r, entry (body (heap w') r) = entry (body (heap w) r)
       ∧ lin (body (heap w') r) = lin (body (heap w) r)
       ∧ rot (body (heap w') r) = rot (body (heap w) r)
       ∧ phys (body (heap w') r) = phys (body (heap w) r).

(** Two bodies the integrator treats alike: same properties, same sleep
    state, both rotational or both not. *)
Definition same_kind (b b' : Body) : Prop :=
  phys b' = phys b ∧ sleep b' = sleep b ∧ (is_Some (rot b') ↔ is_Some (rot b)).

(** A well-formed material table: the material in slot [k] of the list has
    id [k]; every material that has an id is in the list; the pair-index
    table has one slot per ordered pair of materials; and every slot holds
    the sentinel or the position of a contact material. *)
Definition table_ok (w : World) : Prop :=
  (∀ (k : nat) (m : ref), materials (table w) !! k = Some m →
      m_id (materialOf (heap w) m) = Z.of_nat k)
  ∧ (∀ m : ref, m_id (materialOf (heap w) m) ≠ -1 → m ∈ materials (table w))
  ∧ length (mats2cmat (table w))
      = (length (materials (table w)) * length (materials (table w)))%nat
  ∧ (∀ (k : nat) (v : option Z), mats2cmat (table w) !! k = Some v →
      v = Some (-1)
      ∨ ∃ c : Z, v = Some c ∧ 0 ≤ c < js_length (contactmaterials (table w))).

(** A well-formed registry: every body records its position, belongs to
    this world and has an id below [nextId], and no two bodies share an id. *)
Definition registered (w : World) : Prop :=
  World.indexed w
  ∧ (∀ r : ref, r ∈ bodies (registry w) →
       b_id (entry (body (heap w) r)) < nextId (registry w)
       ∧ b_world (entry (body (heap w) r)) = Some (self (settings w)))
  ∧ (∀ r r' : ref, r ∈ bodies (registry w) → r' ∈ bodies (registry w) →
       b_id (entry (body (heap w) r)) = b_id (entry (body (heap w) r')) → r = r').

(** The event a registry operation dispatches. *)
Definition event_of_op (o : World.op) : Event :=
  match o with
  | World.Add b => AddBodyEvent b
  | World.Remove b => RemoveBodyEvent b
  end.

(** A loop that mutates the body it visits: [g] applied to the body of each
    reference of [l] in turn. *)
Definition visit (g : Body → Body) (l : list ref) (h : ref → Body) : ref → Body :=
  fold_left (fun h r => update r g h) l h.

(** * Properties *)

(** ** Numbers and arrays *)

Lemma Qltb_lt (a b : Q) : Qltb a b = true ↔ (a < b)%Q.
Proof.
  unfold Qltb. rewrite negb_true_iff.
  split; intros Hab.
  - apply Qnot_le_lt. intros Hle. apply Qle_bool_iff in Hle. congruence.
  - apply not_true_is_false. intros Hle. apply Qle_bool_iff in Hle.
    exact (Qlt_not_le _ _ Hab Hle).
Qed.


Lemma js_get_nat {A} (l : list A) (i : nat) : js_get l (Z.of_nat i) = l !! i.
Proof.
  unfold js_get. destruct (Z.ltb_spec (Z.of_nat i) 0) as [Hneg|_]; [lia|].
  by rewrite Nat2Z.id.
Qed.

Lemma js_splice1_nat {A} (l : list A) (i : nat) : js_splice1 l (Z.of_nat i) = delete i l.
Proof.
  unfold js_splice1. destruct (Z.ltb_spec (Z.of_nat i) 0) as [Hneg|_]; [lia|].
  by rewrite Nat2Z.id.
Qed.

Lemma existsb_pointwise {A} (f g : A → bool) (l : list A) :
  (∀ x, f x = g x) → existsb f l = existsb g l.
Proof.
  intros Hfg. induction l as [|a l IH]; simpl; [done|]. by rewrite Hfg, IH.
Qed.

Lemma filter_keeps_all {A} (f : A → bool) (l : list A) :
  (∀ x, In x l → f x = true) → List.filter f l = l.
Proof.
  induction l as [|a l IH]; simpl; intros Hl; [done|].
  rewrite Hl by auto. f_equal. apply IH. auto.
Qed.

Lemma filter_drops_all {A} (f : A → bool) (l : list A) :
  (∀ x, In x l → f x = false) → List.filter f l = [].
Proof.
  induction l as [|a l IH]; simpl; intros Hl; [done|].
  rewrite Hl by auto. apply IH. auto.
Qed.

(** ** The object store *)

Lemma update_eq {A} (r : ref) (f : A → A) (h : ref → A) : update r f h r = f (h r).
Proof. unfold update. by rewrite decide_True. Qed.

Lemma update_ne {A} (r r' : ref) (f : A → A) (h : ref → A) :
  r' ≠ r → update r f h r' = h r'.
Proof. intros Hne. unfold update. by rewrite decide_False. Qed.

(** ** The registry: [add] *)

Lemma add_bodies (b : ref) (w : World) :
  bodies (registry (World.add b w)) = bodies (registry w) ++ [b].
Proof. reflexivity. Qed.

Lemma add_body_other (b r : ref) (w : World) :
  r ≠ b → body (heap (World.add b w)) r = body (heap w) r.
Proof.
  intros Hne. unfold World.add. simpl.
  by rewrite !update_ne.
Qed.

Lemma add_body_same (b : ref) (w : World) :
  body (heap (World.add b w)) b =
  mkBody
    (mkEntry (nextId (registry w)) (World.numObjects w) (Some (self (settings w))))
    (set_initVelocity (velocity (lin (body (heap w) b)))
       (set_initPosition (position (lin (body (heap w) b))) (lin (body (heap w) b))))
    ((fun o => set_initQuaternion (quaternion o)
                 (set_initAngularVelocity (angularVelocity o) o)) <$> rot (body (heap w) b))
    (phys (body (heap w) b))
    (set_timeLastSleepy (time (clock w)) (sleep (body (heap w) b))).
Proof.
  unfold World.add. simpl. rewrite !update_eq. reflexivity.
Qed.

(** C2, as amended.  [add] has no membership guard: on a body that already
    belongs to a world it runs to completion like on any other body,
    appending the body to the registry once more and giving it a fresh id
    and the index of the new slot. *)
Theorem add_member_appends_again (b : ref) (w : World) :
  is_Some (b_world (entry (body (heap w) b))) →
  bodies (registry (World.add b w)) = bodies (registry w) ++ [b]
  ∧ b_id (entry (body (heap (World.add b w)) b)) = nextId (registry w)
  ∧ b_index (entry (body (heap (World.add b w)) b)) = World.numObjects w
  ∧ nextId (registry (World.add b w)) = nextId (registry w) + 1
  ∧ b_world (entry (body (heap (World.add b w)) b)) = Some (self (settings w)).
Proof.
  intros _. rewrite add_body_same. simpl. auto.
Qed.

(** C8, as amended.  [add] leaves the live position, velocity, quaternion
    and angular velocity of the body as they are and stores them as the
    initial ones (the rotational pair only on a rigid body); it stamps the
    body with the world time, resizes the collision matrix to the new body
    count and dispatches the add-body event for the body. *)
Theorem add_saves_live_state_as_initial (b : ref) (w : World) :
  let old := body (heap w) b in
  let new := body (heap (World.add b w)) b in
  initPosition (lin new) = position (lin old)
  ∧ initVelocity (lin new) = velocity (lin old)
  ∧ position (lin new) = position (lin old)
  ∧ velocity (lin new) = velocity (lin old)
  ∧ rot new = (fun o => set_initQuaternion (quaternion o)
                          (set_initAngularVelocity (angularVelocity o) o)) <$> rot old
  ∧ timeLastSleepy (sleep new) = time (clock w)
  ∧ numObjectsOf (collisionMatrix (collision (World.add b w))) = World.numObjects (World.add b w)
  ∧ trace (World.add b w) = trace w ++ [AddBodyEvent b].
Proof.
  intros old new. subst old new. rewrite add_body_same. simpl.
  repeat split; reflexivity.
Qed.

(** ** The registry: [remove] and the index invariant *)

Lemma indexed_NoDup (w : World) : World.indexed w → NoDup (bodies (registry w)).
Proof.
  intros Hw. apply NoDup_alt. intros i j r Hi Hj.
  apply Hw in Hi. apply Hw in Hj. lia.
Qed.

Lemma add_indexed (b : ref) (w : World) :
  World.indexed w → b ∉ bodies (registry w) → World.indexed (World.add b w).
Proof.
  intros Hw Hb i r. rewrite add_bodies. intros Hi.
  apply lookup_app_Some in Hi as [Hi | [Hlen Hi]].
  - assert (r ≠ b) as Hne.
    { intros ->. apply Hb. by eapply list_elem_of_lookup_2. }
    rewrite add_body_other by done. by apply Hw.
  - apply list_lookup_singleton_Some in Hi as [Hi ->].
    rewrite add_body_same. simpl. unfold World.numObjects, js_length. lia.
Qed.

(** What the re-indexing loop of [remove] leaves behind. *)
Lemma reindex_spec (k i : nat) (w : World) :
  NoDup (bodies (registry w)) →
  (i + k)%nat = length (bodies (registry w)) →
  ∃ w', World.reindex k (Z.of_nat i) w = Some w'
    ∧ bodies (registry w') = bodies (registry w)
    ∧ (∀ (j : nat) (r : ref), bodies (registry w) !! j = Some r →
         b_index (entry (body (heap w') r)) =
           if decide (i ≤ j)%nat then Z.of_nat j else b_index (entry (body (heap w) r))).
Proof.
  revert i w. induction k as [|k IH]; intros i w Hnd Hlen.
  - exists w. simpl. split; [done|]. split; [done|]. intros j r Hj.
    apply lookup_lt_Some in Hj. rewrite decide_False by lia. done.
  - simpl. rewrite js_get_nat.
    destruct (lookup_lt_is_Some_2 (bodies (registry w)) i) as [ri Hri]; [lia|].
    rewrite Hri. replace (Z.of_nat i + 1) with (Z.of_nat (S i)) by lia.
    destruct (IH (S i) (on_body ri (on_entry (set_index (Z.of_nat i))) w))
      as (w' & Hrun & Hbodies & Hidx); [done | simpl; lia |].
    exists w'. split; [done|]. split; [done|].
    intros j r Hj. rewrite (Hidx j r Hj). simpl.
    destruct (decide (S i ≤ j)%nat) as [Hle|Hgt].
    + rewrite decide_True by lia. done.
    + destruct (decide (j = i)) as [->|Hne].
      * rewrite decide_True by lia.
        assert (r = ri) as -> by congruence.
        by rewrite update_eq.
      * rewrite decide_False by lia.
        rewrite update_ne; [done|].
        intros ->. apply Hne. eapply NoDup_lookup; eauto.
Qed.

(** [remove] on a member of an indexed registry: it succeeds, deletes the
    member's slot and every body that followed it records one less. *)
Lemma remove_spec (b : ref) (p : nat) (w : World) :
  World.indexed w →
  bodies (registry w) !! p = Some b →
  ∃ w', World.remove b w = Some w'
    ∧ bodies (registry w') = delete p (bodies (registry w))
    ∧ (∀ (j : nat) (r : ref), bodies (registry w) !! j = Some r → j ≠ p →
         b_index (entry (body (heap w') r)) =
           if decide (p < j)%nat then Z.of_nat j - 1 else Z.of_nat j).
Proof.
  intros Hw Hp.
  pose proof (indexed_NoDup w Hw) as Hnd.
  pose proof (lookup_lt_Some _ _ _ Hp) as Hlt.
  unfold World.remove.
  set (w1 := on_body b (on_entry (set_world None)) w).
  assert (b_index (entry (body (heap w1) b)) = Z.of_nat p) as Hstart.
  { subst w1. simpl. rewrite update_eq. simpl. by apply Hw. }
  rewrite Hstart.
  set (w2 := on_registry _ w1).
  assert (bodies (registry w2) = delete p (bodies (registry w))) as Hb2.
  { subst w2 w1. simpl. apply js_splice1_nat. }
  assert (World.numObjects w1 - 1 - Z.of_nat p
          = Z.of_nat (length (bodies (registry w)) - 1 - p)) as ->.
  { unfold World.numObjects, js_length. subst w1. simpl. lia. }
  rewrite Nat2Z.id.
  destruct (reindex_spec (length (bodies (registry w)) - 1 - p) p w2)
    as (w3 & Hrun & Hb3 & Hidx).
  { rewrite Hb2. apply sublist_NoDup with (bodies (registry w)); [done|].
    apply sublist_delete. }
  { rewrite Hb2, length_delete by eauto. lia. }
  rewrite Hrun. eexists. split; [reflexivity|]. simpl.
  split; [by rewrite Hb3|].
  intros j r Hj Hne.
  assert (b_index (entry (body (heap w2) r)) = Z.of_nat j) as Hold.
  { subst w2 w1. simpl. unfold update. destruct (decide (r = b)); simpl; by apply Hw. }
  destruct (decide (p < j)%nat) as [Hpj|Hpj].
  - rewrite (Hidx (j - 1)%nat r).
    + rewrite decide_True by lia. lia.
    + rewrite Hb2, list_lookup_delete_ge by lia.
      by replace (S (j - 1)) with j by lia.
  - rewrite (Hidx j r).
    + rewrite decide_False by lia. done.
    + rewrite Hb2, list_lookup_delete_lt by lia. done.
Qed.

Lemma remove_indexed (b : ref) (w : World) :
  World.indexed w → b ∈ bodies (registry w) →
  ∃ w', World.remove b w = Some w' ∧ World.indexed w'.
Proof.
  intros Hw Hb. apply list_elem_of_lookup_1 in Hb as [p Hp].
  destruct (remove_spec b p w Hw Hp) as (w' & Hrun & Hbodies & Hidx).
  exists w'. split; [done|].
  intros i r. rewrite Hbodies. intros Hi.
  destruct (decide (i < p)%nat) as [Hlt|Hge].
  - rewrite list_lookup_delete_lt in Hi by done.
    rewrite (Hidx i r Hi) by lia. rewrite decide_False by lia. done.
  - rewrite list_lookup_delete_ge in Hi by lia.
    rewrite (Hidx (S i) r Hi) by lia. rewrite decide_True by lia. lia.
Qed.

(** C4, as amended.  Starting from a registry in which every body records
    its position, any sequence of [add]s of bodies that are not members and
    [remove]s of bodies that are members runs to completion and ends in such
    a registry again; [add] assigns the count before insertion as index, and
    [remove] decrements the index of every body that followed the removed
    one. *)
Theorem registry_index_is_position :
  (∀ (ops : list World.op) (w : World),
      World.indexed w →
      World.removes_members ops w = true →
      World.adds_fresh ops w = true →
      ∃ w', World.run ops w = Some w' ∧ World.indexed w')
  ∧ (∀ (b : ref) (w : World),
      b_index (entry (body (heap (World.add b w)) b)) = World.numObjects w)
  ∧ (∀ (b r : ref) (p j : nat) (w w' : World),
      World.indexed w →
      bodies (registry w) !! p = Some b →
      bodies (registry w) !! j = Some r →
      (p < j)%nat →
      World.remove b w = Some w' →
      b_index (entry (body (heap w') r)) = b_index (entry (body (heap w) r)) - 1).
Proof.
  split; [|split].
  - induction ops as [|[b|b] ops IH]; intros w Hw Hrem Hadd; simpl in *.
    + by exists w.
    + apply andb_true_iff in Hadd as [Hfresh Hadd].
      apply IH; [|done..].
      apply add_indexed; [done|].
      apply negb_true_iff, bool_decide_eq_false in Hfresh. done.
    + apply andb_true_iff in Hrem as [Hmem Hrem].
      apply bool_decide_eq_true in Hmem.
      destruct (remove_indexed b w Hw Hmem) as (w' & Hrun & Hw').
      rewrite Hrun in *. by apply IH.
  - intros b w. by rewrite add_body_same.
  - intros b r p j w w' Hw Hp Hj Hlt Hrun.
    destruct (remove_spec b p w Hw Hp) as (w'' & Hrun' & _ & Hidx).
    assert (w'' = w') as -> by congruence.
    rewrite (Hidx j r Hj) by lia. rewrite decide_True by done.
    rewrite (Hw j r Hj). done.
Qed.

(** ** The material pair table *)

(** C7.  [addMaterial] on a material that already has an id changes
    nothing, so adding twice is the same as adding once; on an unregistered
    material it assigns the previous material count [n] as id, appends the
    material to the list and appends exactly [2n+1] sentinel slots to the
    pair-index table. *)
Theorem addMaterial_registers_once (m : ref) (w : World) :
  (m_id (materialOf (heap w) m) ≠ -1 → World.addMaterial m w = w)
  ∧ (m_id (materialOf (heap w) m) = -1 →
       let n := js_length (materials (table w)) in
       let w' := World.addMaterial m w in
       m_id (materialOf (heap w') m) = n
       ∧ materials (table w') = materials (table w) ++ [m]
       ∧ mats2cmat (table w') = mats2cmat (table w) ++ replicate (Z.to_nat (2 * n + 1)) (Some (-1))
       ∧ js_length (mats2cmat (table w')) = js_length (mats2cmat (table w)) + (2 * n + 1))
  ∧ World.addMaterial m (World.addMaterial m w) = World.addMaterial m w.
Proof.
  assert (∀ l : list ref, js_length (l ++ [m]) - 1 = js_length l) as Hlen.
  { intros l. unfold js_length. rewrite length_app. simpl. lia. }
  split; [|split].
  - intros Hid. unfold World.addMaterial.
    destruct (Z.eqb_spec (m_id (materialOf (heap w) m)) (-1)); [done|reflexivity].
  - intros Hid n w'. subst w'. unfold World.addMaterial. rewrite Hid. simpl.
    rewrite update_eq. simpl. rewrite Hlen.
    repeat split; try reflexivity.
    unfold js_length. rewrite length_app, length_replicate.
    fold (js_length (materials (table w))). subst n. unfold js_length. lia.
  - unfold World.addMaterial at 2 3.
    destruct (Z.eqb_spec (m_id (materialOf (heap w) m)) (-1)) as [Hid|Hid].
    + unfold World.addMaterial. simpl. rewrite update_eq. simpl. rewrite Hlen.
      destruct (Z.eqb_spec (js_length (materials (table w))) (-1)) as [Hneg|_]; [|done].
      unfold js_length in Hneg. lia.
    + unfold World.addMaterial.
      destruct (Z.eqb_spec (m_id (materialOf (heap w) m)) (-1)); [done|reflexivity].
Qed.

Lemma extends_refl (w : World) : extends w w.
Proof.
  split; [done|]. split; [|done]. exists []. by rewrite app_nil_r.
Qed.

Lemma extends_trans (w1 w2 w3 : World) : extends w1 w2 → extends w2 w3 → extends w1 w3.
Proof.
  intros (Hc1 & [e1 Ht1] & Hi1) (Hc2 & [e2 Ht2] & Hi2).
  split; [congruence|]. split.
  - exists (e1 ++ e2). by rewrite Ht2, Ht1, app_assoc.
  - intros r Hr. rewrite Hi2; [by apply Hi1|]. by rewrite Hi1.
Qed.

Lemma addMaterial_extends (m : ref) (w : World) : extends w (World.addMaterial m w).
Proof.
  unfold World.addMaterial.
  destruct (Z.eqb_spec (m_id (materialOf (heap w) m)) (-1)) as [Hid|Hid];
    [|apply extends_refl].
  split; [done|]. split; [by eexists|].
  intros r Hr. simpl. rewrite update_ne; [done|]. congruence.
Qed.

Lemma addMaterials_extends (ms : list ref) (w : World) :
  extends w (fold_left (fun w m => World.addMaterial m w) ms w).
Proof.
  revert w. induction ms as [|m ms IH]; intros w; simpl.
  - apply extends_refl.
  - eapply extends_trans; [apply addMaterial_extends | apply IH].
Qed.

Lemma addMaterial_id_nonneg (m r : ref) (w : World) :
  -1 ≤ m_id (materialOf (heap w) r) →
  (r = m ∨ 0 ≤ m_id (materialOf (heap w) r)) →
  0 ≤ m_id (materialOf (heap (World.addMaterial m w)) r).
Proof.
  intros Hge Hor. unfold World.addMaterial.
  destruct (Z.eqb_spec (m_id (materialOf (heap w) m)) (-1)) as [Hid|Hid].
  - simpl. unfold update. destruct (decide (r = m)) as [->|Hne]; simpl.
    + unfold js_length. rewrite length_app. simpl. lia.
    + destruct Hor; [done|lia].
  - destruct Hor as [->|]; lia.
Qed.

Lemma addMaterial_id_ge (m r : ref) (w : World) :
  -1 ≤ m_id (materialOf (heap w) r) →
  -1 ≤ m_id (materialOf (heap (World.addMaterial m w)) r).
Proof.
  intros Hge. unfold World.addMaterial.
  destruct (Z.eqb_spec (m_id (materialOf (heap w) m)) (-1)) as [Hid|Hid]; [|done].
  simpl. unfold update. destruct (decide (r = m)); simpl; [|done].
  unfold js_length. lia.
Qed.

Lemma js_get_set {A} (l : list (option A)) (k : Z) (v : A) :
  0 ≤ k → js_get (js_set l k v) k = Some (Some v).
Proof.
  intros Hk. unfold js_get, js_set, js_length.
  destruct (Z.ltb_spec k 0) as [|_]; [lia|].
  destruct (Z.ltb_spec k (Z.of_nat (length l))) as [Hin|Hout].
  - apply list_lookup_insert_eq. lia.
  - rewrite lookup_app_r by lia.
    rewrite lookup_app_r by (rewrite length_replicate; lia).
    rewrite length_replicate.
    replace (Z.to_nat k - length l - Z.to_nat (k - Z.of_nat (length l)))%nat with 0%nat by lia.
    done.
Qed.

Lemma js_get_app {A} (l ext : list A) (k : Z) (v : A) :
  js_get l k = Some v → js_get (l ++ ext) k = Some v.
Proof.
  unfold js_get. destruct (k <? 0); [done|]. apply lookup_app_l_Some.
Qed.

(** Right after [addContactMaterial] the slot of the canonical pair holds
    the id of the contact material, which is its position in the list. *)
Lemma addContactMaterial_stores (cmat : ref) (w : World) :
  let m0 := fst (cm_materials (contactMaterialOf (heap w) cmat)) in
  let m1 := snd (cm_materials (contactMaterialOf (heap w) cmat)) in
  let w1 := World.addContactMaterial cmat w in
  let i := Z.max (m_id (materialOf (heap w1) m0)) (m_id (materialOf (heap w1) m1)) in
  let j := Z.min (m_id (materialOf (heap w1) m0)) (m_id (materialOf (heap w1) m1)) in
  -1 ≤ m_id (materialOf (heap w) m0) →
  -1 ≤ m_id (materialOf (heap w) m1) →
  0 ≤ j
  ∧ js_get (mats2cmat (table w1)) (i + js_length (materials (table w1)) * j)
      = Some (Some (js_length (contactmaterials (table w))))
  ∧ js_get (contactmaterials (table w1)) (js_length (contactmaterials (table w))) = Some cmat.
Proof.
  intros m0 m1 w1 i j H0 H1.
  set (wa := World.addMaterial m1 (World.addMaterial m0 w)).
  assert (0 ≤ m_id (materialOf (heap wa) m0)) as Ha0.
  { apply addMaterial_id_nonneg; [by apply addMaterial_id_ge|].
    right. apply addMaterial_id_nonneg; [done|by left]. }
  assert (0 ≤ m_id (materialOf (heap wa) m1)) as Ha1.
  { apply addMaterial_id_nonneg; [by apply addMaterial_id_ge|by left]. }
  assert (contactmaterials (table wa) = contactmaterials (table w)) as Hcms.
  { pose proof (addMaterial_extends m0 w) as (E1 & _).
    pose proof (addMaterial_extends m1 (World.addMaterial m0 w)) as (E2 & _).
    subst wa. congruence. }
  assert (materialOf (heap w1) = materialOf (heap wa)) as Hmat by reflexivity.
  assert (materials (table w1) = materials (table wa)) as Hms by reflexivity.
  assert (contactmaterials (table w1) = contactmaterials (table w) ++ [cmat]) as Hc1.
  { subst w1. unfold World.addContactMaterial. simpl. fold m0 m1. fold wa. by rewrite Hcms. }
  assert (0 ≤ js_length (materials (table wa))) as Hn by (unfold js_length; lia).
  subst i j. rewrite Hmat, Hms.
  split; [lia|]. split.
  - subst w1. unfold World.addContactMaterial. simpl. fold m0 m1. fold wa.
    rewrite update_eq. simpl. rewrite Hcms.
    replace (js_length (contactmaterials (table w) ++ [cmat]) - 1)
      with (js_length (contactmaterials (table w)))
      by (unfold js_length; rewrite length_app; simpl; lia).
    destruct (Z.ltb_spec (m_id (materialOf (heap wa) m1)) (m_id (materialOf (heap wa) m0))).
    + rewrite Z.max_l, Z.min_r by lia. apply js_get_set. nia.
    + rewrite Z.max_r, Z.min_l by lia. apply js_get_set. nia.
  - rewrite Hc1. unfold js_length. rewrite js_get_nat.
    rewrite lookup_app_r by lia. by rewrite Nat.sub_diag.
Qed.

Lemma getContactMaterial_unfold (a b : ref) (w : World) :
  World.getContactMaterial (Some a) (Some b) w =
  match js_get (mats2cmat (table w))
          (Z.max (m_id (materialOf (heap w) a)) (m_id (materialOf (heap w) b))
           + Z.min (m_id (materialOf (heap w) a)) (m_id (materialOf (heap w) b))
             * js_length (materials (table w))) with
  | Some (Some k) => js_get (contactmaterials (table w)) k
  | _ => None
  end.
Proof.
  unfold World.getContactMaterial.
  destruct (Z.ltb_spec (m_id (materialOf (heap w) a)) (m_id (materialOf (heap w) b))).
  - by rewrite Z.max_r, Z.min_l by lia.
  - by rewrite Z.max_l, Z.min_r by lia.
Qed.

(** C10.  The slot of a contact material is computed from the material
    count of the moment: [addContactMaterial] uses the count at registration,
    [getContactMaterial] the count at lookup.  So the registered contact
    material is found again, whichever way round the two materials are
    given, as long as no material has been added since or the lower of the
    two material ids is [0]; and there is a world in which a contact
    material registered with a lower id above [0] is found right after its
    registration and no longer found once one more material is added. *)
Theorem contact_material_lookup_uses_current_count :
  (∀ (cmat : ref) (extra : list ref) (w : World),
      let m0 := fst (cm_materials (contactMaterialOf (heap w) cmat)) in
      let m1 := snd (cm_materials (contactMaterialOf (heap w) cmat)) in
      let w1 := World.addContactMaterial cmat w in
      let w2 := fold_left (fun w m => World.addMaterial m w) extra w1 in
      let j := Z.min (m_id (materialOf (heap w1) m0)) (m_id (materialOf (heap w1) m1)) in
      -1 ≤ m_id (materialOf (heap w) m0) →
      -1 ≤ m_id (materialOf (heap w) m1) →
      js_length (materials (table w2)) = js_length (materials (table w1)) ∨ j = 0 →
      World.getContactMaterial (Some m0) (Some m1) w2 = Some cmat
      ∧ World.getContactMaterial (Some m1) (Some m0) w2 = Some cmat)
  ∧ (∃ (cmat m : ref) (w : World),
      let m0 := fst (cm_materials (contactMaterialOf (heap w) cmat)) in
      let m1 := snd (cm_materials (contactMaterialOf (heap w) cmat)) in
      let w1 := World.addContactMaterial cmat w in
      0 < Z.min (m_id (materialOf (heap w1) m0)) (m_id (materialOf (heap w1) m1))
      ∧ World.getContactMaterial (Some m0) (Some m1) w1 = Some cmat
      ∧ js_length (materials (table (World.addMaterial m w1))) = js_length (materials (table w1)) + 1
      ∧ World.getContactMaterial (Some m0) (Some m1) (World.addMaterial m w1) = None).
Proof.
  split.
  - intros cmat extra w m0 m1 w1 w2 j H0 H1 Hsame.
    destruct (addContactMaterial_stores cmat w H0 H1) as (Hj & Hslot & Hcm).
    fold m0 m1 w1 in Hj, Hslot, Hcm. fold j in Hj, Hslot.
    destruct (addMaterials_extends extra w1) as (Hcms & [ext Hext] & Hids).
    fold w2 in Hcms, Hext, Hids.
    assert (m_id (materialOf (heap w2) m0) = m_id (materialOf (heap w1) m0)) as E0.
    { apply Hids. subst j. lia. }
    assert (m_id (materialOf (heap w2) m1) = m_id (materialOf (heap w1) m1)) as E1.
    { apply Hids. subst j. lia. }
    assert (Z.max (m_id (materialOf (heap w1) m0)) (m_id (materialOf (heap w1) m1))
            + j * js_length (materials (table w2))
            = Z.max (m_id (materialOf (heap w1) m0)) (m_id (materialOf (heap w1) m1))
              + js_length (materials (table w1)) * j) as Haddr.
    { destruct Hsame as [-> | ->]; lia. }
    assert (World.getContactMaterial (Some m0) (Some m1) w2 = Some cmat) as Hget.
    { rewrite getContactMaterial_unfold, E0, E1. fold j. rewrite Haddr, Hext.
      rewrite (js_get_app _ _ _ _ Hslot). by rewrite Hcms. }
    split; [done|].
    rewrite getContactMaterial_unfold, Z.max_comm, Z.min_comm.
    by rewrite <- getContactMaterial_unfold.
  - exists 0%nat, 3%nat, (World.addMaterial 0%nat ex_world).
    vm_compute. repeat split; reflexivity.
Qed.

(** C10, instance: materials [1] and [2] are registered as the second and
    third material of a world, so that the lower id is [1]; the lookup
    succeeds while the material count stays at three. *)
Lemma contact_material_lookup_witness :
  World.getContactMaterial (Some 1%nat) (Some 2%nat)
    (World.addContactMaterial 0%nat (World.addMaterial 0%nat ex_world)) = Some 0%nat.
Proof.
  apply (proj1 contact_material_lookup_uses_current_count 0%nat []
           (World.addMaterial 0%nat ex_world)).
  - vm_compute. discriminate.
  - vm_compute. discriminate.
  - left. reflexivity.
Defined.

(** ** [step]: what the phases leave alone *)

Lemma static_refl (w : World) : static w w.
Proof. by repeat split. Qed.

Lemma static_trans (w1 w2 w3 : World) : static w1 w2 → static w2 w3 → static w1 w3.
Proof.
  intros (?&?&?&?&?) (?&?&?&?&?). repeat split; congruence.
Qed.

Lemma quiet_refl (w : World) : quiet w w.
Proof. split; [apply static_refl|done]. Qed.

Lemma quiet_trans (w1 w2 w3 : World) : quiet w1 w2 → quiet w2 w3 → quiet w1 w3.
Proof.
  intros (S1&?&?&?) (S2&?&?&?).
  split; [by eapply static_trans|]. repeat split; congruence.
Qed.

Lemma same_bodies_refl (w : World) : same_bodies w w.
Proof. by intros r. Qed.

Lemma same_bodies_trans (w1 w2 w3 : World) :
  same_bodies w1 w2 → same_bodies w2 w3 → same_bodies w1 w3.
Proof.
  intros H12 H23 r. destruct (H12 r) as (?&?&?&?), (H23 r) as (?&?&?&?).
  repeat split; congruence.
Qed.

Lemma fold_left_quiet {B} (f : World → B → World) (l : list B) (w : World) :
  (∀ w b, quiet w (f w b)) → quiet w (fold_left f l w).
Proof.
  intros Hf. revert w. induction l as [|b l IH]; intros w; simpl.
  - apply quiet_refl.
  - eapply quiet_trans; [apply Hf | apply IH].
Qed.

Lemma on_body_quiet (r : ref) (f : Body → Body) (w : World) : quiet w (on_body r f w).
Proof. by repeat split. Qed.

Lemma set_bodyHeap_quiet (h : ref → Body) (w : World) : quiet w (set_bodyHeap h w).
Proof. by repeat split. Qed.

Lemma addEquation_quiet (e : Equation) (w : World) : quiet w (addEquation e w).
Proof. by repeat split. Qed.

Lemma wakeUp_same (r : ref) (w : World) : same_bodies w (on_body r wakeUp w).
Proof.
  intros r'. simpl. unfold update. by destruct (decide (r' = r)).
Qed.

Section StepFacts.
Context `{Env}.

Lemma for_bodies_quiet (f : ref → World → World) (w : World) :
  (∀ r w, quiet w (f r w)) → quiet w (World.for_bodies f w).
Proof.
  intros Hf. unfold World.for_bodies. apply fold_left_quiet. intros w' r. apply Hf.
Qed.

Lemma add_gravity_quiet (r : ref) (w : World) : quiet w (World.add_gravity r w).
Proof.
  unfold World.add_gravity. destruct (World.has_flag _ _);
    [apply on_body_quiet | apply quiet_refl].
Qed.

Lemma damp_quiet (dt : Q) (r : ref) (w : World) : quiet w (World.damp dt r w).
Proof.
  unfold World.damp. destruct (World.has_flag _ _);
    [apply on_body_quiet | apply quiet_refl].
Qed.

Lemma call_quiet (f : ref → option (Body → Body)) (r : ref) (w : World) :
  quiet w (World.call f r w).
Proof.
  unfold World.call. destruct (f r); [apply on_body_quiet | apply quiet_refl].
Qed.

Lemma add_constraints_quiet (w : World) : quiet w (World.add_constraints w).
Proof.
  unfold World.add_constraints. apply fold_left_quiet. intros w' k.
  apply fold_left_quiet. intros w'' e. apply addEquation_quiet.
Qed.

Lemma solve_and_clear_quiet (dt : Q) (w : World) : quiet w (World.solve_and_clear dt w).
Proof. by repeat split. Qed.

(** Before the loop over the contacts: nothing is dispatched, the matrix of
    the last step becomes the previous one and the current one is empty. *)
Lemma before_contacts_spec (w : World) :
  let w' := World.before_contacts w in
  static w w'
  ∧ clock w' = clock w
  ∧ trace w' = trace w
  ∧ touching (collisionMatrixPrevious (collision w')) = touching (collisionMatrix (collision w))
  ∧ touching (collisionMatrix (collision w')) = ∅.
Proof.
  unfold World.before_contacts.
  pose proof (for_bodies_quiet World.add_gravity w add_gravity_quiet) as Hq.
  set (w1 := World.for_bodies World.add_gravity w) in *.
  destruct Hq as ((?&?&?&?&?)&?&Hcol&?).
  destruct (collisionPairs _ _) as [p1 p2].
  destruct (getContacts _ _ _ _ _) as [cs old].
  simpl. rewrite Hcol. by repeat split.
Qed.

(** The branch for two responding bodies changes the equations only. *)
Lemma respond_spec (c : ContactEquation) (cm : ContactMaterial) (g : Q) (w : World) :
  fst (World.respond c cm g w)
    = mkContact (c_bi c) (c_bj c) (c_ri c) (c_rj c) (c_ni c) (restitution cm) g
        (contactEquationStiffness cm) (contactEquationRegularizationTime cm)
  ∧ quiet w (snd (World.respond c cm g w))
  ∧ body (heap (snd (World.respond c cm g w))) = body (heap w).
Proof.
  unfold World.respond. destruct (Qltb 0 (friction cm)).
  - destruct (World.take_friction _ _ _ _) as [c1 pool].
    destruct (World.take_friction pool _ _ _) as [c2 pool'].
    simpl. by repeat split.
  - simpl. by repeat split.
Qed.

Lemma matrix_get_set (m : CollisionMatrix) (a b : Body) :
  matrix_get (matrix_set m a b true) a b = true.
Proof.
  unfold matrix_get, matrix_set. simpl. apply bool_decide_eq_true. set_solver.
Qed.

(** One iteration of the loop over the contacts. *)
Lemma contact_iteration_spec (c : ContactEquation) (w : World) :
  let w' := snd (World.contact_iteration c w) in
  fst (World.contact_iteration c w) = World.annotate w c
  ∧ static w w'
  ∧ clock w' = clock w
  ∧ same_bodies w w'
  ∧ collisionMatrixPrevious (collision w') = collisionMatrixPrevious (collision w)
  ∧ touching (collisionMatrix (collision w'))
      = (if World.penetrating w c
         then {[ World.key_of w c ]} ∪ touching (collisionMatrix (collision w))
         else touching (collisionMatrix (collision w)))
  ∧ trace w' = trace w ++
      (if World.penetrating w c
          && negb (bool_decide (World.key_of w c
                                  ∈ touching (collisionMatrixPrevious (collision w))))
       then World.edge_events (World.annotate w c) else []).
Proof.
  unfold World.contact_iteration, World.annotate, World.penetrating, World.key_of.
  set (bi := body (heap w) (c_bi c)). set (bj := body (heap w) (c_bj c)).
  destruct (Qltb (World.gap bi bj c) 0); simpl.
  2:{ rewrite app_nil_r. by repeat split. }
  set (r := if collisionResponse (phys bi) && collisionResponse (phys bj)
            then World.respond c (World.resolve bi bj w) (World.gap bi bj c) w
            else (c, w)).
  assert (fst r = (if collisionResponse (phys bi) && collisionResponse (phys bj)
                   then mkContact (c_bi c) (c_bj c) (c_ri c) (c_rj c) (c_ni c)
                          (restitution (World.resolve bi bj w)) (World.gap bi bj c)
                          (contactEquationStiffness (World.resolve bi bj w))
                          (contactEquationRegularizationTime (World.resolve bi bj w))
                   else c)
          ∧ quiet w (snd r) ∧ body (heap (snd r)) = body (heap w)) as (Hc & Hq & Hb).
  { subst r. destruct (collisionResponse (phys bi) && collisionResponse (phys bj)).
    - apply respond_spec.
    - split; [done|]. split; [apply quiet_refl|done]. }
  destruct r as [c' w1]. simpl in Hc, Hq, Hb.
  destruct Hq as (Hs & Hclock & Hcol & Htr).
  assert (c_bi c' = c_bi c ∧ c_bj c' = c_bj c) as [Ebi Ebj].
  { rewrite Hc. by destruct (_ && _). }
  simpl. rewrite matrix_get_set. rewrite Hcol.
  change (bool_decide (pair_key bi bj ∈ touching (collisionMatrixPrevious (collision w))))
    with (matrix_get (collisionMatrixPrevious (collision w)) bi bj).
  destruct Hs as (S1 & S2 & S3 & S4 & S5).
  assert (same_bodies w w1) as Hsame by (intros r; by rewrite Hb).
  destruct (matrix_get (collisionMatrixPrevious (collision w)) bi bj); simpl.
  - rewrite app_nil_r. repeat split; simpl; try congruence; apply Hsame.
  - rewrite Ebi, Ebj, Htr, Hc.
    repeat split; simpl; try congruence.
    + rewrite Hb. unfold update.
      by destruct (decide (r = c_bj c)), (decide (r = c_bi c)).
    + rewrite Hb. unfold update.
      by destruct (decide (r = c_bj c)), (decide (r = c_bi c)).
    + rewrite Hb. unfold update.
      by destruct (decide (r = c_bj c)), (decide (r = c_bi c)).
    + rewrite Hb. unfold update.
      by destruct (decide (r = c_bj c)), (decide (r = c_bi c)).
    + unfold World.edge_events.
      destruct (collisionResponse (phys bi) && collisionResponse (phys bj));
        simpl; by rewrite <- !app_assoc.
Qed.

(** ** [step]: contact and friction equations *)



(** C9.  For a penetrating contact where at least one of the two bodies has
    collision response disabled, the iteration hands the solver nothing and
    makes no friction equation, yet it records the pair as touching in the
    collision matrix and, when the pair was not touching in the previous
    step, dispatches the collide event to both bodies and wakes both. *)
Theorem contact_without_response (c : ContactEquation) (w : World) :
  let bi := body (heap w) (c_bi c) in
  let bj := body (heap w) (c_bj c) in
  let w' := snd (World.contact_iteration c w) in
  (World.gap bi bj c < 0)%Q →
  collisionResponse (phys bi) && collisionResponse (phys bj) = false →
  solverEquations (equations w') = solverEquations (equations w)
  ∧ frictionEquations (equations w') = frictionEquations (equations w)
  ∧ matrix_get (collisionMatrix (collision w')) bi bj = true
  ∧ (matrix_get (collisionMatrixPrevious (collision w)) bi bj = false →
       trace w' = trace w ++ [CollideEvent (c_bi c) (c_bj c) c;
                              CollideEvent (c_bj c) (c_bi c) c;
                              WakeUpCall (c_bi c); WakeUpCall (c_bj c)]
       ∧ isSleeping (body (heap w') (c_bi c)) = false
       ∧ isSleeping (body (heap w') (c_bj c)) = false)
  ∧ (matrix_get (collisionMatrixPrevious (collision w)) bi bj = true →
       trace w' = trace w).
Proof.
  intros bi bj w' Hgap Hresp. apply Qltb_lt in Hgap.
  subst w'. unfold World.contact_iteration. fold bi bj.
  rewrite Hgap, Hresp. simpl. rewrite matrix_get_set.
  destruct (matrix_get (collisionMatrixPrevious (collision w)) bi bj); simpl.
  - repeat split; try done. apply matrix_get_set.
  - split; [done|]. split; [done|]. split; [apply matrix_get_set|].
    split; [|done]. intros _. split; [by rewrite <- !app_assoc|].
    unfold update.
    split; by destruct (decide _), (decide _).
Qed.

(** ** [step]: the loop over the contacts *)

Lemma same_bodies_penetrating (w w' : World) (c : ContactEquation) :
  same_bodies w w' → World.penetrating w' c = World.penetrating w c.
Proof.
  intros Hb. unfold World.penetrating, World.gap.
  destruct (Hb (c_bi c)) as (_ & -> & _), (Hb (c_bj c)) as (_ & -> & _). done.
Qed.

Lemma same_bodies_key_of (w w' : World) (c : ContactEquation) :
  same_bodies w w' → World.key_of w' c = World.key_of w c.
Proof.
  intros Hb. unfold World.key_of, pair_key.
  destruct (Hb (c_bi c)) as (-> & _), (Hb (c_bj c)) as (-> & _). done.
Qed.

Lemma same_bodies_annotate (w w' : World) (c : ContactEquation) :
  static w w' → same_bodies w w' → World.annotate w' c = World.annotate w c.
Proof.
  intros (_ & _ & Ht & Hm & Hcm) Hb. unfold World.annotate.
  rewrite (same_bodies_penetrating w w' c Hb).
  unfold World.resolve, World.getContactMaterial, World.gap.
  destruct (Hb (c_bi c)) as (_ & -> & _ & ->), (Hb (c_bj c)) as (_ & -> & _ & ->).
  by rewrite Ht, Hm, Hcm.
Qed.

(** The loop over the contacts: each penetrating contact whose pair was not
    touching in the previous step sets off its edge events, in the order of
    the contact list; the pairs of the penetrating contacts are recorded. *)
Lemma contact_loop_spec (cs : list ContactEquation) (w : World) :
  let w' := snd (World.contact_loop cs w) in
  fst (World.contact_loop cs w) = World.annotate w <$> cs
  ∧ static w w'
  ∧ clock w' = clock w
  ∧ same_bodies w w'
  ∧ collisionMatrixPrevious (collision w') = collisionMatrixPrevious (collision w)
  ∧ (∀ p, p ∈ touching (collisionMatrix (collision w')) ↔
          existsb (fun c => World.penetrating w c && bool_decide (World.key_of w c = p)) cs = true
          ∨ p ∈ touching (collisionMatrix (collision w)))
  ∧ trace w' = trace w ++
      flat_map (fun c =>
        if World.penetrating w c
           && negb (bool_decide (World.key_of w c
                                   ∈ touching (collisionMatrixPrevious (collision w))))
        then World.edge_events (World.annotate w c) else []) cs.
Proof.
  revert w. induction cs as [|c cs IH]; intros w; simpl.
  - rewrite app_nil_r. repeat split; try done; [by right | by intros [?|?]].
  - pose proof (contact_iteration_spec c w) as Hit.
    destruct (World.contact_iteration c w) as [c' w1]. simpl in Hit.
    destruct Hit as (Hc & Hs & Hclock & Hb & Hprev & Hcur & Htr).
    specialize (IH w1).
    destruct (World.contact_loop cs w1) as [cs' w2]. simpl in IH.
    destruct IH as (Hcs & Hs' & Hclock' & Hb' & Hprev' & Hcur' & Htr').
    simpl.
    assert (∀ x, World.penetrating w1 x = World.penetrating w x) as Epen
      by (intros x; by apply same_bodies_penetrating).
    assert (∀ x, World.key_of w1 x = World.key_of w x) as Ekey
      by (intros x; by apply same_bodies_key_of).
    assert (∀ x, World.annotate w1 x = World.annotate w x) as Eann
      by (intros x; by apply same_bodies_annotate).
    split.
    { rewrite Hc, Hcs. f_equal. apply list_fmap_ext. intros i x _. apply Eann. }
    split; [by eapply static_trans|].
    split; [congruence|].
    split; [by eapply same_bodies_trans|].
    split; [congruence|].
    split.
    { intros p. rewrite Hcur', Hcur.
      rewrite (existsb_pointwise _
                 (fun c => World.penetrating w c && bool_decide (World.key_of w c = p)))
        by (intros x; by rewrite Epen, Ekey).
      rewrite orb_true_iff, andb_true_iff, bool_decide_eq_true.
      destruct (World.penetrating w c).
      - rewrite elem_of_union, elem_of_singleton. intuition congruence.
      - intuition congruence. }
    rewrite Htr', Htr, Hprev, <- app_assoc. f_equal. f_equal.
    apply flat_map_ext. intros x. by rewrite Epen, Ekey, Eann.
Qed.

Lemma make_contact_constraints_spec (w : World) :
  let w' := World.make_contact_constraints w in
  static w w'
  ∧ clock w' = clock w
  ∧ (∀ p, p ∈ touching (collisionMatrix (collision w')) ↔
          World.pair_penetrating w p = true ∨ p ∈ touching (collisionMatrix (collision w)))
  ∧ trace w' = trace w ++
      flat_map (fun c =>
        if World.penetrating w c
           && negb (bool_decide (World.key_of w c
                                   ∈ touching (collisionMatrixPrevious (collision w))))
        then World.edge_events (World.annotate w c) else []) (contacts (equations w)).
Proof.
  unfold World.make_contact_constraints.
  pose proof (contact_loop_spec (contacts (equations w)) w) as Hloop.
  destruct (World.contact_loop _ w) as [cs w1]. simpl in Hloop.
  destruct Hloop as (_ & (?&?&?&?&?) & Hclock & _ & _ & Hcur & Htr).
  simpl. repeat split; try done; apply Hcur.
Qed.

(** ** [step]: integration and the whole step *)

Lemma normalize_calls_same_kind (qn fast : bool) (r : ref) (b b' : Body) :
  same_kind b b' → World.normalize_calls qn fast r b' = World.normalize_calls qn fast r b.
Proof.
  intros (Hp & Hs & Hr).
  unfold World.normalize_calls, World.integrated, World.has_flag, isSleeping.
  rewrite Hp, Hs. by rewrite (bool_decide_ext _ _ Hr).
Qed.

Lemma same_kind_refl (b : Body) : same_kind b b.
Proof. by repeat split. Qed.

Lemma same_kind_trans (b1 b2 b3 : Body) : same_kind b1 b2 → same_kind b2 b3 → same_kind b1 b3.
Proof.
  intros (?&?&?) (?&?&?). repeat split; try congruence; tauto.
Qed.

Lemma on_lin_same_kind (f : Linear → Linear) (b : Body) : same_kind b (on_lin f b).
Proof. by repeat split. Qed.

Lemma on_rot_same_kind (f : Rotational → Rotational) (b : Body) : same_kind b (on_rot f b).
Proof.
  repeat split; try done; simpl; destruct (rot b); simpl; eauto; by intros [? ?].
Qed.

Lemma update_same_kind (r r' : ref) (g : Body → Body) (h : ref → Body) :
  (∀ b, same_kind b (g b)) → same_kind (h r') (update r g h r').
Proof.
  intros Hg. unfold update. destruct (decide (r' = r)); [apply Hg | apply same_kind_refl].
Qed.

Lemma dispatch_all_spec (evs : list Event) (w : World) :
  let w' := fold_left (fun w e => dispatchEvent e w) evs w in
  static w w' ∧ clock w' = clock w ∧ collision w' = collision w
  ∧ heap w' = heap w ∧ trace w' = trace w ++ evs.
Proof.
  revert w. induction evs as [|e evs IH]; intros w; simpl.
  - rewrite app_nil_r. by repeat split.
  - destruct (IH (dispatchEvent e w)) as ((?&?&?&?&?) & ? & ? & ? & Htr).
    rewrite Htr. simpl. rewrite <- app_assoc. by repeat split.
Qed.

(** One iteration of the leap frog. *)
Lemma integrate_spec (dt : Q) (qn fast : bool) (r : ref) (w : World) :
  let w' := World.integrate dt qn fast r w in
  static w w' ∧ clock w' = clock w ∧ collision w' = collision w
  ∧ trace w' = trace w ++ World.normalize_calls qn fast r (body (heap w) r)
  ∧ (∀ r', same_kind (body (heap w) r') (body (heap w') r')).
Proof.
  unfold World.integrate.
  set (b := body (heap w) r).
  set (w1 := if World.integrated b then _ else w).
  assert (static w w1 ∧ clock w1 = clock w ∧ collision w1 = collision w
          ∧ trace w1 = trace w
          ∧ (∀ r', same_kind (body (heap w) r') (body (heap w1) r'))) as (Hs & Hc & Hm & Ht & Hk).
  { subst w1. destruct (World.integrated b).
    - split; [by repeat split|]. do 3 (split; [done|]).
      intros r'. simpl. apply update_same_kind. intros b'.
      eapply same_kind_trans; [apply on_lin_same_kind | apply on_rot_same_kind].
    - split; [apply static_refl|]. do 3 (split; [done|]).
      intros r'. apply same_kind_refl. }
  destruct (dispatch_all_spec (World.normalize_calls qn fast r b) w1)
    as (Hs' & Hc' & Hm' & Hh' & Ht').
  split; [exact (static_trans _ _ _ Hs Hs')|].
  split; [simpl; congruence|]. split; [simpl; congruence|].
  split; [simpl; congruence|].
  intros r'. eapply same_kind_trans; [apply Hk|].
  simpl. rewrite Hh'. apply update_same_kind. intros b'.
  eapply same_kind_trans; [apply on_lin_same_kind | apply on_rot_same_kind].
Qed.

(** The leap frog loop: the calls to the normalisation routines, body by
    body. *)
Lemma integrate_loop_spec (dt : Q) (qn fast : bool) (l : list ref) (w : World) :
  let w' := fold_left (fun w r => World.integrate dt qn fast r w) l w in
  static w w' ∧ clock w' = clock w ∧ collision w' = collision w
  ∧ trace w' = trace w ++ flat_map (fun r => World.normalize_calls qn fast r (body (heap w) r)) l.
Proof.
  revert w. induction l as [|r l IH]; intros w; simpl.
  - rewrite app_nil_r. by repeat split.
  - destruct (integrate_spec dt qn fast r w) as (Hs & Hc & Hm & Ht & Hk).
    destruct (IH (World.integrate dt qn fast r w)) as (Hs' & Hc' & Hm' & Ht').
    split; [exact (static_trans _ _ _ Hs Hs')|].
    split; [congruence|]. split; [congruence|].
    rewrite Ht', Ht, <- app_assoc. f_equal. f_equal.
    apply flat_map_ext. intros r'. apply normalize_calls_same_kind, Hk.
Qed.

(** Everything before the leap frog. *)
Lemma before_integration_spec (dt : Q) (w : World) :
  let mcc := World.make_contact_constraints (World.before_contacts w) in
  let wi := World.before_integration dt w in
  static w wi ∧ clock wi = clock w ∧ collision wi = collision mcc
  ∧ trace wi = trace mcc ++ [PreStepEvent].
Proof.
  intros mcc wi.
  destruct (before_contacts_spec w) as (S0 & C0 & _).
  destruct (make_contact_constraints_spec (World.before_contacts w)) as (S1 & C1 & _).
  fold mcc in S1, C1.
  pose proof (add_constraints_quiet mcc) as Q2.
  set (w2 := World.add_constraints mcc) in *.
  pose proof (solve_and_clear_quiet dt w2) as Q3.
  set (w3 := World.solve_and_clear dt w2) in *.
  pose proof (for_bodies_quiet (World.damp dt) w3 (damp_quiet dt)) as Q4.
  set (w4 := World.for_bodies (World.damp dt) w3) in *.
  pose proof (for_bodies_quiet (World.call preStep) (dispatchEvent PreStepEvent w4)
                (call_quiet preStep)) as Q5.
  pose proof (quiet_trans _ _ _ (quiet_trans _ _ _ Q2 Q3) Q4) as (S4 & C4 & M4 & T4).
  destruct Q5 as (S5 & C5 & M5 & T5).
  subst wi. unfold World.before_integration. fold mcc w2 w3 w4.
  split.
  { eapply static_trans; [|exact S5].
    eapply static_trans; [|by repeat split].
    eapply static_trans; [exact S0|]. eapply static_trans; [exact S1|exact S4]. }
  split; [rewrite C5; simpl; congruence|].
  split; [rewrite M5; simpl; congruence|].
  rewrite T5. simpl. by rewrite T4.
Qed.

(** The whole step. *)
Lemma step_spec (dt : option Q) (w : World) :
  let d := World.step_dt dt w in
  let mcc := World.make_contact_constraints (World.before_contacts w) in
  let wi := World.before_integration d w in
  settings (World.step dt w) = settings w
  ∧ registry (World.step dt w) = registry w
  ∧ clock (World.step dt w) = mkClock (time (clock w) + d) (stepnumber (clock w) + 1)
  ∧ collision (World.step dt w) = collision mcc
  ∧ trace (World.step dt w) =
      trace mcc ++ [PreStepEvent]
      ++ flat_map (fun r => World.normalize_calls (World.quatNormalize w)
                              (quatNormalizeFast (settings w)) r (body (heap wi) r))
           (bodies (registry w))
      ++ [PostStepEvent].
Proof.
  intros d mcc wi.
  destruct (before_integration_spec d w) as (Si & Ci & Mi & Ti).
  fold mcc wi in Si, Ci, Mi, Ti.
  destruct Si as (Es & Er & Et & Em & Ecm).
  assert (World.quatNormalize wi = World.quatNormalize w) as Eqn.
  { unfold World.quatNormalize. by rewrite Ci, Es. }
  unfold World.step. fold d wi. rewrite Eqn, Es.
  assert (World.for_bodies
            (World.integrate d (World.quatNormalize w) (quatNormalizeFast (settings w))) wi
          = fold_left (fun v r => World.integrate d (World.quatNormalize w)
                                    (quatNormalizeFast (settings w)) r v)
              (bodies (registry w)) wi) as ->
    by (unfold World.for_bodies; by rewrite Er).
  destruct (integrate_loop_spec d (World.quatNormalize w) (quatNormalizeFast (settings w))
              (bodies (registry w)) wi) as (S1 & C1 & M1 & T1).
  set (w1 := fold_left _ (bodies (registry w)) wi) in *.
  set (w2 := dispatchEvent PostStepEvent (on_clock _ w1)).
  pose proof (for_bodies_quiet (World.call postStep) w2 (call_quiet postStep)) as Q3.
  set (w3 := World.for_bodies (World.call postStep) w2) in *.
  assert (quiet w3 (if allowSleep (settings w3)
                    then World.for_bodies
                           (fun r w => on_body r (sleepTick (time (clock w))) w) w3
                    else w3)) as Q4.
  { destruct (allowSleep (settings w3)); [|apply quiet_refl].
    apply for_bodies_quiet. intros r w'. apply on_body_quiet. }
  destruct (quiet_trans _ _ _ Q3 Q4) as ((E1 & E2 & _) & E3 & E4 & E5).
  destruct S1 as (F1 & F2 & _).
  rewrite E1, E2, E3, E4, E5. subst w2. simpl.
  rewrite F1, F2, C1, M1, T1, Ti, Ci, Mi, <- !app_assoc.
  by repeat split.
Qed.

(** What one step appends to the trace: the edge events of the contacts,
    the pre-step event, the normalisation calls, the post-step event. *)
Lemma step_events_spec (dt : option Q) (w : World) :
  let A := World.before_contacts w in
  let wi := World.before_integration (World.step_dt dt w) w in
  World.step_events dt w =
    flat_map (fun c =>
      if World.penetrating A c
         && negb (bool_decide (World.key_of A c ∈ touching (collisionMatrix (collision w))))
      then World.edge_events (World.annotate A c) else []) (contacts (equations A))
    ++ [PreStepEvent]
    ++ flat_map (fun r => World.normalize_calls (World.quatNormalize w)
                            (quatNormalizeFast (settings w)) r (body (heap wi) r))
         (bodies (registry w))
    ++ [PostStepEvent].
Proof.
  intros A wi. unfold World.step_events.
  destruct (step_spec dt w) as (_ & _ & _ & _ & ->). fold wi A.
  destruct (make_contact_constraints_spec A) as (_ & _ & _ & ->).
  destruct (before_contacts_spec w) as (_ & _ & Ht & Hp & _). fold A in Ht, Hp.
  rewrite Ht, <- !app_assoc, drop_app_length. f_equal.
  apply flat_map_ext. intros c. by rewrite Hp.
Qed.

Lemma edge_events_are_edges (f : ContactEquation → bool) (g : ContactEquation → ContactEquation)
    (cs : list ContactEquation) (e : Event) :
  In e (flat_map (fun c => if f c then World.edge_events (g c) else []) cs) →
  World.is_edge e = true.
Proof.
  rewrite in_flat_map. intros (c & _ & Hin). destruct (f c); [|done].
  simpl in Hin. by destruct Hin as [<-|[<-|[<-|[<-|[]]]]].
Qed.

Lemma normalize_calls_no_edges (qn fast : bool) (h : ref → Body) (l : list ref) (e : Event) :
  In e (flat_map (fun r => World.normalize_calls qn fast r (h r)) l) →
  World.is_edge e = false.
Proof.
  rewrite in_flat_map. intros (r & _ & Hin). unfold World.normalize_calls in Hin.
  destruct (_ && _ && _); [|done]. destruct Hin as [<-|[]]. by destruct fast.
Qed.


(** C1, the code at the failing input.  [step] never assigns [last_dt]: it
    keeps the value the constructor gave it.  So after [new World()] and a
    step of any size [d], a step without argument has size [1/60], and the
    world time after the two steps is [d + 1/60]; in particular after a
    step of size [1/30] the step without argument does not have size
    [1/30]. *)
Theorem step_without_dt_ignores_previous_dt :
  (∀ (w : World) (dt : option Q), last_dt (settings (World.step dt w)) = last_dt (settings w))
  ∧ (∀ (me : WorldId) (h : Heap) (dcm : ContactMaterial) (d : Q),
       let w1 := World.step (Some d) (World.create me h dcm) in
       World.step_dt None w1 = (1 # 60)%Q
       ∧ time (clock w1) = (0 + d)%Q
       ∧ time (clock (World.step None w1)) = (0 + d + (1 # 60))%Q)
  ∧ (∀ (me : WorldId) (h : Heap) (dcm : ContactMaterial),
       ¬ (World.step_dt None (World.step (Some (1 # 30)%Q) (World.create me h dcm))
          == 1 # 30)%Q).
Proof.
  assert (∀ (me : WorldId) (h : Heap) (dcm : ContactMaterial) (d : Q),
            World.step_dt None (World.step (Some d) (World.create me h dcm)) = (1 # 60)%Q)
    as Hsize.
  { intros me h dcm d. unfold World.step_dt.
    destruct (step_spec (Some d) (World.create me h dcm)) as (-> & _). reflexivity. }
  split; [|split].
  3:{ intros me h dcm. rewrite Hsize. intros Heq. discriminate Heq. }
  - intros w dt. by destruct (step_spec dt w) as (-> & _).
  - intros me h dcm d w1.
    assert (World.step_dt None w1 = (1 # 60)%Q) as Hdt.
    { unfold World.step_dt. subst w1.
      destruct (step_spec (Some d) (World.create me h dcm)) as (-> & _). reflexivity. }
    split; [done|]. split.
    + subst w1. by destruct (step_spec (Some d) (World.create me h dcm)) as (_ & _ & -> & _).
    + destruct (step_spec None w1) as (_ & _ & -> & _). rewrite Hdt. cbn [time].
      subst w1. by destruct (step_spec (Some d) (World.create me h dcm)) as (_ & _ & -> & _).
Qed.

(** C5, as amended.  Collide events and wake-ups are set off contact by
    contact.  In the first step of a world whose collision matrix is empty,
    every penetrating contact sets off one collide event to each of its two
    bodies and the wake-up of both.  After a step, the matrix holds exactly
    the pairs that had a penetrating contact in it.  In the step that
    follows, a penetrating contact sets off its events when its pair had no
    penetrating contact in the step before, and nothing when it had one: a
    pair gets collide events in the first step of a run of penetrating steps,
    once per penetrating contact of the pair, and none in the later steps of
    the run. *)
Theorem collide_events_on_first_contact (w : World) (dt dt' : option Q) :
  let A := World.before_contacts w in
  let w1 := World.step dt w in
  let B := World.before_contacts w1 in
  (touching (collisionMatrix (collision w)) = ∅ →
     List.filter World.is_edge (World.step_events dt w) =
       flat_map (fun c => if World.penetrating A c
                          then World.edge_events (World.annotate A c) else [])
         (contacts (equations A)))
  ∧ (∀ p, p ∈ touching (collisionMatrix (collision w1)) ↔ World.pair_penetrating A p = true)
  ∧ List.filter World.is_edge (World.step_events dt' w1) =
      flat_map (fun c => if World.penetrating B c
                            && negb (World.pair_penetrating A (World.key_of B c))
                         then World.edge_events (World.annotate B c) else [])
        (contacts (equations B)).
Proof.
  intros A w1 B.
  assert (∀ (v : World) (d : option Q),
    List.filter World.is_edge (World.step_events d v) =
      flat_map (fun c =>
        if World.penetrating (World.before_contacts v) c
           && negb (bool_decide (World.key_of (World.before_contacts v) c
                                   ∈ touching (collisionMatrix (collision v))))
        then World.edge_events (World.annotate (World.before_contacts v) c) else [])
        (contacts (equations (World.before_contacts v)))) as Hedges.
  { intros v d. rewrite step_events_spec. rewrite !List.filter_app. simpl.
    rewrite (filter_keeps_all World.is_edge) by apply edge_events_are_edges.
    rewrite (filter_drops_all World.is_edge) by apply normalize_calls_no_edges.
    by rewrite app_nil_r. }
  assert (∀ p, p ∈ touching (collisionMatrix (collision w1))
               ↔ World.pair_penetrating A p = true) as Hmatrix.
  { intros p. subst w1. destruct (step_spec dt w) as (_ & _ & _ & -> & _).
    destruct (make_contact_constraints_spec A) as (_ & _ & Hm & _).
    destruct (before_contacts_spec w) as (_ & _ & _ & _ & Hcur).
    fold A in Hcur |- *. rewrite Hm, Hcur, elem_of_empty. tauto. }
  split; [|split; [done|]].
  - intros Hempty. rewrite Hedges, Hempty. fold A.
    apply flat_map_ext. intros c.
    rewrite bool_decide_eq_false_2 by apply not_elem_of_empty.
    by rewrite andb_true_r.
  - rewrite Hedges. fold B. apply flat_map_ext. intros c.
    destruct (World.pair_penetrating A (World.key_of B c)) eqn:Hp.
    + by rewrite bool_decide_eq_true_2 by apply Hmatrix, Hp.
    + rewrite bool_decide_eq_false_2; [done|]. rewrite Hmatrix, Hp. done.
Qed.

End StepFacts.

(** ** Instances on the concrete worlds *)

(** C2, as stated, fails: body [0] belongs to the world after a first
    [add], and a second [add] of it changes the registry. *)
Lemma add_member_counterexample :
  let w1 := World.add 0%nat ex_world in
  b_world (entry (body (heap w1) 0%nat)) = Some 0%nat
  ∧ bodies (registry w1) = [0%nat]
  ∧ bodies (registry (World.add 0%nat w1)) = [0%nat; 0%nat]
  ∧ bodies (registry (World.add 0%nat w1)) ≠ bodies (registry w1).
Proof.
  repeat split. discriminate.
Qed.

(** C2, amended, on that input. *)
Lemma add_member_appends_again_witness :
  bodies (registry (World.add 0%nat (World.add 0%nat ex_world))) = [0%nat; 0%nat]
  ∧ b_index (entry (body (heap (World.add 0%nat (World.add 0%nat ex_world))) 0%nat)) = 1.
Proof.
  destruct (add_member_appends_again 0%nat (World.add 0%nat ex_world)) as (Hb & _ & Hi & _).
  - eexists. reflexivity.
  - split; [exact Hb | exact Hi].
Defined.

(** C4, as stated, fails: the sequence [add(b); add(b)] removes nothing,
    and leaves body [0] in slot [0] with index [1]. *)
Lemma registry_index_counterexample :
  World.removes_members [World.Add 0%nat; World.Add 0%nat] ex_world = true
  ∧ ∃ w', World.run [World.Add 0%nat; World.Add 0%nat] ex_world = Some w'
          ∧ bodies (registry w') !! 0%nat = Some 0%nat
          ∧ b_index (entry (body (heap w') 0%nat)) = 1
          ∧ ¬ World.indexed w'.
Proof.
  split; [reflexivity|]. eexists. split; [reflexivity|].
  split; [reflexivity|]. split; [reflexivity|].
  intros Hidx. specialize (Hidx 0%nat 0%nat eq_refl). discriminate Hidx.
Qed.

(** C4, amended: three bodies are added to a new world and the middle one
    is removed. *)
Lemma registry_index_is_position_witness :
  ∃ w', World.run [World.Add 0%nat; World.Add 1%nat; World.Add 2%nat; World.Remove 1%nat]
          ex_world = Some w'
        ∧ World.indexed w'.
Proof.
  apply (proj1 registry_index_is_position).
  - intros i r Hi. discriminate Hi.
  - reflexivity.
  - reflexivity.
Defined.

(** C7 on a new world: material [0] is unregistered, becomes material
    number [0] and brings one sentinel slot; once registered it is left
    alone. *)
Lemma addMaterial_registers_once_witness :
  m_id (materialOf (heap (World.addMaterial 0%nat ex_world)) 0%nat) = 0
  ∧ materials (table (World.addMaterial 0%nat ex_world)) = [0%nat]
  ∧ mats2cmat (table (World.addMaterial 0%nat ex_world)) = [Some (-1)]
  ∧ World.addMaterial 0%nat (World.addMaterial 0%nat ex_world) = World.addMaterial 0%nat ex_world.
Proof.
  destruct (proj1 (proj2 (addMaterial_registers_once 0%nat ex_world))) as (Hid & Hm & Ht & _).
  - reflexivity.
  - split; [exact Hid|]. split; [exact Hm|]. split; [exact Ht|].
    apply (proj1 (addMaterial_registers_once 0%nat (World.addMaterial 0%nat ex_world))).
    discriminate.
Defined.

(** C8, as stated, fails: body [1] is in no world, lives at [(0, -1, 0)]
    and stores the origin as initial position; after [add] it still lives at
    [(0, -1, 0)], and it is the stored initial position that has changed. *)
Lemma add_initial_state_counterexample :
  b_world (entry (body (heap ex_world) 1%nat)) = None
  ∧ initPosition (lin (body (heap ex_world) 1%nat)) = mkVec3 0 0 0
  ∧ position (lin (body (heap (World.add 1%nat ex_world)) 1%nat)) = mkVec3 0 (-1) 0
  ∧ position (lin (body (heap (World.add 1%nat ex_world)) 1%nat))
      ≠ initPosition (lin (body (heap ex_world) 1%nat))
  ∧ initPosition (lin (body (heap (World.add 1%nat ex_world)) 1%nat)) = mkVec3 0 (-1) 0.
Proof.
  repeat split. discriminate.
Qed.


(** C9 on the world whose body [1] does not respond to collisions. *)
Lemma contact_without_response_witness :
  solverEquations (equations (snd (@World.contact_iteration rest_env ex_contact ex_ghost))) = []
  ∧ trace (snd (@World.contact_iteration rest_env ex_contact ex_ghost))
    = trace ex_ghost ++ [CollideEvent 0%nat 1%nat ex_contact; CollideEvent 1%nat 0%nat ex_contact;
                         WakeUpCall 0%nat; WakeUpCall 1%nat].
Proof.
  destruct (@contact_without_response rest_env ex_contact ex_ghost) as (He & _ & _ & Hrise & _).
  - reflexivity.
  - reflexivity.
  - split; [exact He|]. apply Hrise. reflexivity.
Defined.

(** C5, as stated, fails: in the first step of the two-body world the pair
    was not touching before and is penetrating, with two contact points; each
    of the two bodies is sent the collide event twice. *)
Lemma collide_once_counterexample :
  touching (collisionMatrix (collision ex_two_bodies)) = ∅
  ∧ World.pair_penetrating (@World.before_contacts rest_env ex_two_bodies) (1, 0) = true
  ∧ World.collide_count 0%nat (@World.step_events rest_env None ex_two_bodies) = 2%nat
  ∧ World.collide_count 1%nat (@World.step_events rest_env None ex_two_bodies) = 2%nat.
Proof.
  split; [reflexivity|]. split; [vm_compute; reflexivity|].
  split; vm_compute; reflexivity.
Qed.

(** C5, amended, on the two-body world: the first step sets off the events
    of both contact points, the second step sets off none. *)
Lemma collide_events_on_first_contact_witness :
  length (List.filter World.is_edge (@World.step_events rest_env None ex_two_bodies)) = 8%nat
  ∧ List.filter World.is_edge
      (@World.step_events rest_env None (@World.step rest_env None ex_two_bodies)) = [].
Proof.
  destruct (@collide_events_on_first_contact rest_env ex_two_bodies None None)
    as (Hfirst & _ & Hnext).
  split.
  - rewrite Hfirst by reflexivity. vm_compute. reflexivity.
  - rewrite Hnext. vm_compute. reflexivity.
Defined.


(** * Further properties *)

(** ** The material pair table *)

Lemma addMaterial_registered (m : ref) (w : World) :
  m_id (materialOf (heap w) m) ≠ -1 → World.addMaterial m w = w.
Proof.
  intros Hid. unfold World.addMaterial.
  destruct (Z.eqb_spec (m_id (materialOf (heap w) m)) (-1)); [done|reflexivity].
Qed.

Lemma addMaterial_registers (m : ref) (w : World) :
  m_id (materialOf (heap (World.addMaterial m w)) m) ≠ -1.
Proof.
  unfold World.addMaterial.
  destruct (Z.eqb_spec (m_id (materialOf (heap w) m)) (-1)) as [Hid|Hid]; [|done].
  simpl. rewrite update_eq. simpl. unfold js_length. rewrite length_app. simpl. lia.
Qed.

Lemma table_ok_id_range (m : ref) (w : World) :
  table_ok w → m_id (materialOf (heap w) m) ≠ -1 →
  0 ≤ m_id (materialOf (heap w) m) < js_length (materials (table w)).
Proof.
  intros (T1 & T2 & _) Hid. apply T2 in Hid.
  apply list_elem_of_lookup_1 in Hid as [k Hk].
  rewrite (T1 k m Hk). apply lookup_lt_Some in Hk. unfold js_length. lia.
Qed.

Lemma addMaterial_table_ok (m : ref) (w : World) :
  table_ok w → table_ok (World.addMaterial m w).
Proof.
  intros Hok. pose proof Hok as (T1 & T2 & T3 & T4).
  unfold World.addMaterial.
  destruct (Z.eqb_spec (m_id (materialOf (heap w) m)) (-1)) as [Hid|Hid]; [|done].
  assert (m ∉ materials (table w)) as Hnew.
  { intros Hin. apply list_elem_of_lookup_1 in Hin as [k Hk].
    rewrite (T1 k m Hk) in Hid. lia. }
  split; [|split; [|split]]; simpl.
  - intros k m' Hk. apply lookup_app_Some in Hk as [Hk | [Hlen Hk]].
    + rewrite update_ne; [by apply T1|].
      intros ->. apply Hnew. by eapply list_elem_of_lookup_2.
    + apply list_lookup_singleton_Some in Hk as [Hk <-].
      rewrite update_eq. simpl. unfold js_length. rewrite length_app. simpl. lia.
  - intros m'. unfold update. destruct (decide (m' = m)) as [->|Hne].
    + intros _. apply elem_of_app. right. by apply list_elem_of_singleton.
    + intros Hid'. apply elem_of_app. left. by apply T2.
  - rewrite !length_app, length_replicate, T3. simpl. unfold js_length. lia.
  - intros k v Hk. apply lookup_app_Some in Hk as [Hk | [_ Hk]].
    + exact (T4 k v Hk).
    + apply lookup_replicate in Hk as [-> _]. by left.
Qed.

Lemma js_get_set_ne {A} (l : list (option A)) (k k' : Z) (v : A) :
  0 ≤ k < js_length l → k' ≠ k → js_get (js_set l k v) k' = js_get l k'.
Proof.
  intros Hk Hne. unfold js_get, js_set.
  destruct (Z.ltb_spec k 0) as [|_]; [lia|].
  destruct (Z.ltb_spec k (js_length l)) as [_|]; [|lia].
  destruct (Z.ltb_spec k' 0) as [|Hk']; [done|].
  apply list_lookup_insert_ne. lia.
Qed.

(** [addContactMaterial] on a well-formed table whose two materials are
    already registered, spelled out. *)
Lemma addContactMaterial_registered (cmat : ref) (w : World) :
  let m0 := fst (cm_materials (contactMaterialOf (heap w) cmat)) in
  let m1 := snd (cm_materials (contactMaterialOf (heap w) cmat)) in
  let i := Z.max (m_id (materialOf (heap w) m0)) (m_id (materialOf (heap w) m1)) in
  let j := Z.min (m_id (materialOf (heap w) m0)) (m_id (materialOf (heap w) m1)) in
  let w' := World.addContactMaterial cmat w in
  m_id (materialOf (heap w) m0) ≠ -1 →
  m_id (materialOf (heap w) m1) ≠ -1 →
  materials (table w') = materials (table w)
  ∧ materialOf (heap w') = materialOf (heap w)
  ∧ contactmaterials (table w') = contactmaterials (table w) ++ [cmat]
  ∧ mats2cmat (table w')
      = js_set (mats2cmat (table w)) (i + js_length (materials (table w)) * j)
          (js_length (contactmaterials (table w))).
Proof.
  intros m0 m1 i j w' H0 H1. subst w'. unfold World.addContactMaterial. fold m0 m1.
  rewrite (addMaterial_registered m0 w H0), (addMaterial_registered m1 w H1).
  simpl. rewrite update_eq. simpl.
  replace (js_length (contactmaterials (table w) ++ [cmat]) - 1)
    with (js_length (contactmaterials (table w)))
    by (unfold js_length; rewrite length_app; simpl; lia).
  repeat split. subst i j.
  destruct (Z.ltb_spec (m_id (materialOf (heap w) m1)) (m_id (materialOf (heap w) m0))).
  - by rewrite Z.max_l, Z.min_r by lia.
  - by rewrite Z.max_r, Z.min_l by lia.
Qed.

Lemma addContactMaterial_as_registered (cmat : ref) (w : World) :
  let m0 := fst (cm_materials (contactMaterialOf (heap w) cmat)) in
  let m1 := snd (cm_materials (contactMaterialOf (heap w) cmat)) in
  World.addContactMaterial cmat w
  = World.addContactMaterial cmat (World.addMaterial m1 (World.addMaterial m0 w)).
Proof.
  intros m0 m1.
  set (wa := World.addMaterial m1 (World.addMaterial m0 w)).
  assert (contactMaterialOf (heap wa) = contactMaterialOf (heap w)) as Hcm.
  { pose proof (addMaterial_extends m0 w) as (_ & _ & _).
    subst wa. unfold World.addMaterial.
    destruct (_ =? _); simpl; destruct (_ =? _); reflexivity. }
  assert (m_id (materialOf (heap wa) m1) ≠ -1) as H1 by apply addMaterial_registers.
  assert (m_id (materialOf (heap wa) m0) ≠ -1) as H0.
  { subst wa. destruct (addMaterial_extends m1 (World.addMaterial m0 w)) as (_ & _ & Hids).
    rewrite Hids; apply addMaterial_registers. }
  unfold World.addContactMaterial at 2. rewrite Hcm. fold m0 m1.
  rewrite (addMaterial_registered m0 wa H0), (addMaterial_registered m1 wa H1).
  reflexivity.
Qed.

Lemma addContactMaterial_table_ok (cmat : ref) (w : World) :
  table_ok w → table_ok (World.addContactMaterial cmat w).
Proof.
  intros Hok. rewrite addContactMaterial_as_registered.
  set (m0 := fst (cm_materials (contactMaterialOf (heap w) cmat))).
  set (m1 := snd (cm_materials (contactMaterialOf (heap w) cmat))).
  set (wa := World.addMaterial m1 (World.addMaterial m0 w)).
  assert (table_ok wa) as Hoka by (by do 2 apply addMaterial_table_ok).
  assert (contactMaterialOf (heap wa) cmat = contactMaterialOf (heap w) cmat) as Hcm.
  { subst wa. unfold World.addMaterial.
    destruct (_ =? _); simpl; destruct (_ =? _); reflexivity. }
  assert (m_id (materialOf (heap wa) m1) ≠ -1) as H1 by apply addMaterial_registers.
  assert (m_id (materialOf (heap wa) m0) ≠ -1) as H0.
  { subst wa. destruct (addMaterial_extends m1 (World.addMaterial m0 w)) as (_ & _ & Hids).
    rewrite Hids; apply addMaterial_registers. }
  pose proof (addContactMaterial_registered cmat wa) as Hreg.
  rewrite Hcm in Hreg. fold m0 m1 in Hreg.
  destruct (Hreg H0 H1) as (Em & Eh & Ec & Et).
  pose proof (table_ok_id_range m0 wa Hoka H0) as R0.
  pose proof (table_ok_id_range m1 wa Hoka H1) as R1.
  destruct Hoka as (T1 & T2 & T3 & T4).
  set (a := Z.max (m_id (materialOf (heap wa) m0)) (m_id (materialOf (heap wa) m1))
            + js_length (materials (table wa))
              * Z.min (m_id (materialOf (heap wa) m0)) (m_id (materialOf (heap wa) m1))) in *.
  assert (0 ≤ a < js_length (mats2cmat (table wa))) as Ha.
  { subst a. unfold js_length in *. rewrite T3. nia. }
  assert (mats2cmat (table (World.addContactMaterial cmat wa))
          = <[Z.to_nat a := Some (js_length (contactmaterials (table wa)))]>
              (mats2cmat (table wa))) as Et'.
  { rewrite Et. unfold js_set.
    destruct (Z.ltb_spec a 0); [lia|]. destruct (Z.ltb_spec a (js_length (mats2cmat (table wa)))); [done|lia]. }
  split; [|split; [|split]].
  - intros k m. rewrite Em, Eh. apply T1.
  - intros m. rewrite Em, Eh. apply T2.
  - by rewrite Et', length_insert, Em.
  - intros k v. rewrite Et', Ec.
    unfold js_length at 2. rewrite length_app. simpl.
    destruct (decide (k = Z.to_nat a)) as [->|Hne].
    + rewrite list_lookup_insert_eq by (unfold js_length in Ha; lia).
      intros [= <-]. right. eexists. split; [done|]. unfold js_length. lia.
    + rewrite list_lookup_insert_ne by done. intros Hk.
      destruct (T4 k v Hk) as [->|(c & -> & Hc)]; [by left|].
      right. exists c. split; [done|]. unfold js_length in *. lia.
Qed.

(** X1.  Any sequence of [addMaterial] and [addContactMaterial] calls keeps
    the material table well formed; in particular the pair-index table has
    exactly [n * n] slots for [n] materials (what the comment in
    [addMaterial] announces) and [addContactMaterial] never writes past its
    end. *)
Theorem material_table_stays_well_formed (ops : list World.table_op) (w : World) :
  table_ok w →
  table_ok (World.run_table ops w)
  ∧ js_length (mats2cmat (table (World.run_table ops w)))
    = js_length (materials (table (World.run_table ops w)))
      * js_length (materials (table (World.run_table ops w))).
Proof.
  intros Hok.
  assert (table_ok (World.run_table ops w)) as Hrun.
  { unfold World.run_table. revert w Hok. induction ops as [|[m|cmat] ops IH]; intros w Hok; simpl.
    - done.
    - by apply IH, addMaterial_table_ok.
    - by apply IH, addContactMaterial_table_ok. }
  split; [done|]. destruct Hrun as (_ & _ & T3 & _).
  unfold js_length. rewrite T3. lia.
Qed.

(** X2.  [getContactMaterial] does not depend on the order of its two
    arguments, whatever the state of the table. *)
Theorem getContactMaterial_symmetric (m1 m2 : option ref) (w : World) :
  World.getContactMaterial m1 m2 w = World.getContactMaterial m2 m1 w.
Proof.
  destruct m1 as [a|], m2 as [b|]; try reflexivity.
  by rewrite !getContactMaterial_unfold, Z.max_comm, Z.min_comm.
Qed.

(** X3.  In a well-formed table a material that was never registered (or no
    material at all) has no contact material with anything: the lookup
    returns [undefined], in either argument order. *)
Theorem getContactMaterial_unregistered (a : ref) (mb : option ref) (w : World) :
  table_ok w →
  m_id (materialOf (heap w) a) = -1 →
  World.getContactMaterial (Some a) mb w = None
  ∧ World.getContactMaterial mb (Some a) w = None
  ∧ World.getContactMaterial None mb w = None.
Proof.
  intros Hok Ha.
  assert (World.getContactMaterial (Some a) mb w = None) as Hnone.
  { destruct mb as [b|]; [|reflexivity].
    rewrite getContactMaterial_unfold, Ha.
    assert (-1 ≤ m_id (materialOf (heap w) b) < js_length (materials (table w))) as Hb.
    { destruct (decide (m_id (materialOf (heap w) b) = -1)) as [->|Hb].
      - unfold js_length. lia.
      - pose proof (table_ok_id_range b w Hok Hb). lia. }
    unfold js_get.
    destruct (Z.ltb_spec (Z.max (-1) (m_id (materialOf (heap w) b))
                          + Z.min (-1) (m_id (materialOf (heap w) b))
                            * js_length (materials (table w))) 0) as [_|Hge]; [done|].
    rewrite Z.min_l in Hge by lia. lia. }
  split; [done|]. split; [|by destruct mb].
  destruct mb as [b|]; [|reflexivity].
  rewrite getContactMaterial_unfold, Z.max_comm, Z.min_comm, <- getContactMaterial_unfold.
  done.
Qed.

(** X4.  In a well-formed table, registering a contact material for two
    registered materials leaves the lookup of every other pair of registered
    materials as it was. *)
Theorem addContactMaterial_keeps_other_pairs (cmat a b : ref) (w : World) :
  let m0 := fst (cm_materials (contactMaterialOf (heap w) cmat)) in
  let m1 := snd (cm_materials (contactMaterialOf (heap w) cmat)) in
  let id := fun m => m_id (materialOf (heap w) m) in
  table_ok w →
  id m0 ≠ -1 → id m1 ≠ -1 → id a ≠ -1 → id b ≠ -1 →
  (Z.max (id a) (id b), Z.min (id a) (id b)) ≠ (Z.max (id m0) (id m1), Z.min (id m0) (id m1)) →
  World.getContactMaterial (Some a) (Some b) (World.addContactMaterial cmat w)
  = World.getContactMaterial (Some a) (Some b) w.
Proof.
  intros m0 m1 id Hok H0 H1 Ha Hb Hpair.
  destruct (addContactMaterial_registered cmat w H0 H1) as (Em & Eh & Ec & Et).
  fold m0 m1 in Et.
  pose proof (table_ok_id_range m0 w Hok H0) as R0.
  pose proof (table_ok_id_range m1 w Hok H1) as R1.
  pose proof (table_ok_id_range a w Hok Ha) as Ra.
  pose proof (table_ok_id_range b w Hok Hb) as Rb.
  destruct Hok as (T1 & T2 & T3 & T4).
  rewrite !getContactMaterial_unfold, Em, Eh, Et, Ec.
  fold (id a) (id b) (id m0) (id m1) in *.
  set (n := js_length (materials (table w))) in *.
  assert (0 ≤ n) as Hn by (subst n; unfold js_length; lia).
  rewrite js_get_set_ne.
  - destruct (js_get (mats2cmat (table w)) (Z.max (id a) (id b) + Z.min (id a) (id b) * n))
      as [[k|]|] eqn:Hslot; [|done..].
    assert (k = -1 ∨ 0 ≤ k < js_length (contactmaterials (table w))) as [->|Hk].
    { unfold js_get in Hslot. destruct (_ <? 0); [done|].
      destruct (T4 _ _ Hslot) as [[= ->]|(c & [= ->] & Hc)]; [by left|by right]. }
    + reflexivity.
    + unfold js_get. destruct (Z.ltb_spec k 0); [lia|].
      apply lookup_app_l. unfold js_length in Hk. lia.
  - unfold js_length at 1. rewrite T3. fold n. subst n. unfold js_length in *. nia.
  - intros Heq. apply Hpair.
    assert (0 ≤ Z.max (id a) (id b) < n) as Bx by lia.
    assert (0 ≤ Z.max (id m0) (id m1) < n) as Bx' by lia.
    revert Heq Bx Bx'.
    generalize (Z.max (id a) (id b)) (Z.min (id a) (id b))
               (Z.max (id m0) (id m1)) (Z.min (id m0) (id m1)).
    intros x y x' y' Heq Bx Bx'.
    assert (y = y') as -> by nia.
    f_equal. lia.
Qed.

(** ** The registry *)

(** The re-indexing loop writes [index] fields of listed bodies and nothing
    else. *)
Lemma reindex_frame (k : nat) (i : Z) (w w' : World) :
  World.reindex k i w = Some w' →
  settings w' = settings w ∧ registry w' = registry w ∧ collision w' = collision w
  ∧ trace w' = trace w
  ∧ (∀ r, b_id (entry (body (heap w') r)) = b_id (entry (body (heap w) r))
          ∧ b_world (entry (body (heap w') r)) = b_world (entry (body (heap w) r))
          ∧ lin (body (heap w') r) = lin (body (heap w) r)
          ∧ rot (body (heap w') r) = rot (body (heap w) r)
          ∧ phys (body (heap w') r) = phys (body (heap w) r)
          ∧ sleep (body (heap w') r) = sleep (body (heap w) r))
  ∧ (∀ r, r ∉ bodies (registry w) → body (heap w') r = body (heap w) r).
Proof.
  revert i w. induction k as [|k IH]; intros i w Hrun; simpl in Hrun.
  - injection Hrun as <-. by repeat split.
  - destruct (js_get (bodies (registry w)) i) as [ri|] eqn:Hget; [|done].
    apply IH in Hrun as (Es & Er & Ec & Et & Eb & Eo). simpl in *.
    split; [done|]. split; [done|]. split; [done|]. split; [done|]. split.
    + intros r. destruct (Eb r) as (-> & -> & -> & -> & -> & ->).
      unfold update. by destruct (decide (r = ri)).
    + intros r Hr. rewrite Eo by done. apply update_ne. intros ->. apply Hr.
      unfold js_get in Hget. destruct (i <? 0); [done|].
      by eapply list_elem_of_lookup_2.
Qed.

(** What [remove] leaves alone, whenever it completes. *)
Lemma remove_frame (b : ref) (w w' : World) :
  World.remove b w = Some w' →
  settings w' = settings w
  ∧ nextId (registry w') = nextId (registry w)
  ∧ trace w' = trace w ++ [RemoveBodyEvent b]
  ∧ b_world (entry (body (heap w') b)) = None
  ∧ (∀ r, b_id (entry (body (heap w') r)) = b_id (entry (body (heap w) r))
          ∧ (r ≠ b → b_world (entry (body (heap w') r)) = b_world (entry (body (heap w) r)))
          ∧ lin (body (heap w') r) = lin (body (heap w) r)
          ∧ rot (body (heap w') r) = rot (body (heap w) r)
          ∧ phys (body (heap w') r) = phys (body (heap w) r)
          ∧ sleep (body (heap w') r) = sleep (body (heap w) r)).
Proof.
  unfold World.remove. intros Hrun.
  destruct (World.reindex _ _ _) as [w1|] eqn:Hre; [|done].
  injection Hrun as <-.
  apply reindex_frame in Hre as (Es & Er & Ec & Et & Eb & _). simpl in *.
  split; [done|]. split; [by rewrite Er|]. split; [by rewrite Et|]. split.
  - destruct (Eb b) as (_ & -> & _). by rewrite update_eq.
  - intros r. destruct (Eb r) as (-> & -> & -> & -> & -> & ->).
    unfold update. destruct (decide (r = b)); by repeat split.
Qed.

(** [remove] of a body whose recorded index is a position of the list, be
    the body stored there or not: the slot at that index is deleted. *)
Lemma remove_at (b : ref) (p : nat) (w : World) :
  World.indexed w →
  b_index (entry (body (heap w) b)) = Z.of_nat p →
  (p < length (bodies (registry w)))%nat →
  ∃ w', World.remove b w = Some w'
    ∧ bodies (registry w') = delete p (bodies (registry w))
    ∧ World.indexed w'
    ∧ (∀ r, r ∉ delete p (bodies (registry w)) →
            b_index (entry (body (heap w') r)) = b_index (entry (body (heap w) r))).
Proof.
  intros Hw Hidxb Hlt.
  pose proof (indexed_NoDup w Hw) as Hnd.
  unfold World.remove.
  set (w1 := on_body b (on_entry (set_world None)) w).
  assert (b_index (entry (body (heap w1) b)) = Z.of_nat p) as Hstart.
  { subst w1. simpl. by rewrite update_eq. }
  rewrite Hstart.
  set (w2 := on_registry _ w1).
  assert (bodies (registry w2) = delete p (bodies (registry w))) as Hb2.
  { subst w2 w1. simpl. apply js_splice1_nat. }
  assert (World.numObjects w1 - 1 - Z.of_nat p
          = Z.of_nat (length (bodies (registry w)) - 1 - p)) as ->.
  { unfold World.numObjects, js_length. subst w1. simpl. lia. }
  rewrite Nat2Z.id.
  assert (∀ r, b_index (entry (body (heap w2) r)) = b_index (entry (body (heap w) r))) as Hsame.
  { intros r. subst w2 w1. simpl. unfold update. by destruct (decide (r = b)). }
  destruct (reindex_spec (length (bodies (registry w)) - 1 - p) p w2)
    as (w3 & Hrun & Hb3 & Hidx).
  { rewrite Hb2. apply sublist_NoDup with (bodies (registry w)); [done|].
    apply sublist_delete. }
  { rewrite Hb2, length_delete by (by apply lookup_lt_is_Some_2). lia. }
  pose proof (reindex_frame _ _ _ _ Hrun) as (_ & _ & _ & _ & _ & Hout).
  rewrite Hrun. eexists. split; [reflexivity|]. simpl.
  split; [by rewrite Hb3|]. split.
  - intros i r. simpl. rewrite Hb3, Hb2. intros Hi.
    rewrite (Hidx i r) by (by rewrite Hb2).
    destruct (decide (p ≤ i)%nat) as [Hle|Hgt]; [done|].
    rewrite Hsame. apply Hw.
    by rewrite list_lookup_delete_lt in Hi by lia.
  - intros r Hr. rewrite Hout by (by rewrite Hb2). apply Hsame.
Qed.

Lemma delete_past_end {A} (l : list A) (i : nat) : (length l ≤ i)%nat → delete i l = l.
Proof.
  intros Hi. rewrite delete_take_drop, take_ge, drop_ge by lia. apply app_nil_r.
Qed.

Lemma delete_last_app {A} (l : list A) (x : A) : delete (length l) (l ++ [x]) = l.
Proof.
  induction l as [|a l IH]; simpl; [done|]. by rewrite IH.
Qed.

(** X5.  [remove] undoes [add] on the registry list: adding a body that is
    not a member and removing it again succeeds and gives back the list of
    bodies, with every body recording its position; the body is left without
    world, and [nextId] is not given back, so the id is never assigned
    again. *)
Theorem remove_after_add (b : ref) (w : World) :
  World.indexed w →
  b ∉ bodies (registry w) →
  ∃ w', World.remove b (World.add b w) = Some w'
    ∧ bodies (registry w') = bodies (registry w)
    ∧ World.indexed w'
    ∧ b_world (entry (body (heap w') b)) = None
    ∧ nextId (registry w') = nextId (registry w) + 1
    ∧ trace w' = trace w ++ [AddBodyEvent b; RemoveBodyEvent b].
Proof.
  intros Hw Hb.
  pose proof (add_indexed b w Hw Hb) as Hw1.
  destruct (remove_at b (length (bodies (registry w))) (World.add b w) Hw1)
    as (w' & Hrun & Hbodies & Hw' & _).
  { rewrite add_body_same. simpl. reflexivity. }
  { rewrite add_bodies, length_app. simpl. lia. }
  exists w'. split; [done|].
  destruct (remove_frame _ _ _ Hrun) as (_ & Hnext & Htr & Hworld & _).
  split; [by rewrite Hbodies, add_bodies, delete_last_app|].
  split; [done|]. split; [done|]. split; [by rewrite Hnext|].
  rewrite Htr. simpl. by rewrite <- app_assoc.
Qed.

(** X6.  [remove] does not reset the index of the body it removes.  Removing
    the same body a second time therefore deletes whatever body has moved
    into its old slot: after two removals of the member at position [p], the
    body that followed it is gone from the registry as well. *)
Theorem remove_twice_evicts_follower (b r : ref) (p : nat) (w : World) :
  World.indexed w →
  bodies (registry w) !! p = Some b →
  bodies (registry w) !! S p = Some r →
  ∃ w1 w2, World.remove b w = Some w1
    ∧ World.remove b w1 = Some w2
    ∧ bodies (registry w1) = delete p (bodies (registry w))
    ∧ bodies (registry w2) = delete p (delete p (bodies (registry w)))
    ∧ r ≠ b
    ∧ r ∉ bodies (registry w2).
Proof.
  intros Hw Hp Hr.
  pose proof (indexed_NoDup w Hw) as Hnd.
  pose proof (lookup_lt_Some _ _ _ Hr) as Hlen.
  destruct (remove_at b p w Hw) as (w1 & Hrun1 & Hb1 & Hw1 & Hout1);
    [by apply Hw | lia |].
  assert (b ∉ delete p (bodies (registry w))) as Hgone.
  { intros Hin. apply list_elem_of_lookup_1 in Hin as [k Hk].
    destruct (decide (k < p)%nat).
    - rewrite list_lookup_delete_lt in Hk by done.
      pose proof (NoDup_lookup _ _ _ _ Hnd Hk Hp). lia.
    - rewrite list_lookup_delete_ge in Hk by lia.
      pose proof (NoDup_lookup _ _ _ _ Hnd Hk Hp). lia. }
  destruct (remove_at b p w1 Hw1) as (w2 & Hrun2 & Hb2 & _ & _).
  { rewrite (Hout1 b Hgone). by apply Hw. }
  { rewrite Hb1, length_delete by eauto. lia. }
  exists w1, w2. split; [done|]. split; [done|]. split; [done|].
  split; [by rewrite Hb2, Hb1|]. split.
  - intros ->. pose proof (NoDup_lookup _ _ _ _ Hnd Hp Hr). lia.
  - rewrite Hb2, Hb1. intros Hin. apply list_elem_of_lookup_1 in Hin as [k Hk].
    destruct (decide (k < p)%nat).
    + rewrite !list_lookup_delete_lt in Hk by done.
      pose proof (NoDup_lookup _ _ _ _ Hnd Hk Hr). lia.
    + rewrite !list_lookup_delete_ge in Hk by lia.
      pose proof (NoDup_lookup _ _ _ _ Hnd Hk Hr). lia.
Qed.

(** X7.  [remove] outside its precondition.  On a body whose recorded index
    is at or past the body count the list of bodies is left as it is, yet
    the collision matrix is resized to one less than the count and the
    remove-body event is dispatched; on a body whose recorded index is
    negative, in a world that has bodies, the re-indexing loop reads a
    missing element and [remove] throws. *)
Theorem remove_outside_registry (b : ref) (w : World) :
  (World.numObjects w ≤ b_index (entry (body (heap w) b)) →
     ∃ w', World.remove b w = Some w'
       ∧ bodies (registry w') = bodies (registry w)
       ∧ numObjectsOf (collisionMatrix (collision w')) = World.numObjects w - 1
       ∧ trace w' = trace w ++ [RemoveBodyEvent b])
  ∧ (b_index (entry (body (heap w) b)) < 0 → 0 < World.numObjects w →
     World.remove b w = None).
Proof.
  split.
  - intros Hge. unfold World.remove. simpl. rewrite update_eq. simpl.
    unfold World.numObjects in *. simpl.
    replace (Z.to_nat (js_length (bodies (registry w)) - 1 - b_index (entry (body (heap w) b))))
      with 0%nat by lia.
    simpl. eexists. split; [reflexivity|]. simpl. split; [|done].
    unfold js_splice1, js_length in *.
    destruct (Z.ltb_spec (b_index (entry (body (heap w) b))) 0); [lia|].
    apply delete_past_end. lia.
  - intros Hneg Hpos. unfold World.remove. simpl. rewrite update_eq. simpl.
    unfold World.numObjects in *. simpl.
    destruct (Z.to_nat (js_length (bodies (registry w)) - 1 - b_index (entry (body (heap w) b))))
      as [|k] eqn:Hk; [lia|].
    simpl. unfold js_get.
    destruct (Z.ltb_spec (b_index (entry (body (heap w) b))) 0); [done|lia].
Qed.

Lemma add_registered (b : ref) (w : World) :
  registered w → b ∉ bodies (registry w) → registered (World.add b w).
Proof.
  intros (Hw & Hid & Hinj) Hb.
  assert (∀ r, r ∈ bodies (registry w) → r ≠ b) as Hne by (intros r Hr ->; done).
  split; [by apply add_indexed|]. split.
  - intros r. rewrite add_bodies, elem_of_app, list_elem_of_singleton.
    intros [Hr | ->].
    + rewrite add_body_other by auto. destruct (Hid r Hr) as [Hlt Hworld].
      split; [simpl; lia | done].
    + rewrite add_body_same. simpl. split; [lia|done].
  - intros r r'. rewrite add_bodies, !elem_of_app, !list_elem_of_singleton.
    intros [Hr | ->] [Hr' | ->]; [| | |done].
    + rewrite !add_body_other by auto. by apply Hinj.
    + rewrite add_body_same, add_body_other by auto. simpl.
      destruct (Hid r Hr) as [Hlt _]. lia.
    + rewrite add_body_same, add_body_other by auto. simpl.
      destruct (Hid r' Hr') as [Hlt _]. lia.
Qed.

Lemma remove_registered (b : ref) (w : World) :
  registered w → b ∈ bodies (registry w) →
  ∃ w', World.remove b w = Some w' ∧ registered w'
        ∧ nextId (registry w') = nextId (registry w)
        ∧ World.numObjects w' = World.numObjects w - 1.
Proof.
  intros (Hw & Hid & Hinj) Hb.
  pose proof (indexed_NoDup w Hw) as Hnd.
  apply list_elem_of_lookup_1 in Hb as [p Hp].
  destruct (remove_at b p w Hw) as (w' & Hrun & Hbodies & Hw' & _);
    [by apply Hw | by eapply lookup_lt_Some |].
  destruct (remove_frame _ _ _ Hrun) as (Hset & Hnext & _ & _ & Hbody).
  assert (∀ r, r ∈ bodies (registry w') → r ∈ bodies (registry w) ∧ r ≠ b) as Hsub.
  { intros r. rewrite Hbodies. intros Hr. split.
    - eapply elem_of_sublist; [done | apply sublist_delete].
    - intros ->. apply list_elem_of_lookup_1 in Hr as [k Hk].
      destruct (decide (k < p)%nat).
      + rewrite list_lookup_delete_lt in Hk by done.
        pose proof (NoDup_lookup _ _ _ _ Hnd Hk Hp). lia.
      + rewrite list_lookup_delete_ge in Hk by lia.
        pose proof (NoDup_lookup _ _ _ _ Hnd Hk Hp). lia. }
  exists w'. split; [done|]. split; [|split; [done|]].
  - split; [done|]. split.
    + intros r Hr. destruct (Hsub r Hr) as [Hin Hne].
      destruct (Hbody r) as (-> & Hworld & _). rewrite Hworld, Hnext, Hset by done.
      by apply Hid.
    + intros r r' Hr Hr'. destruct (Hsub r Hr) as [Hin _], (Hsub r' Hr') as [Hin' _].
      destruct (Hbody r) as (-> & _), (Hbody r') as (-> & _). by apply Hinj.
  - unfold World.numObjects, js_length. rewrite Hbodies, length_delete by eauto.
    apply lookup_lt_Some in Hp. lia.
Qed.

(** X8.  Ids are unique and never reused: starting from a well-formed
    registry, any sequence of [add]s of non-members and [remove]s of members
    runs to completion and leaves a registry in which every body belongs to
    this world, has an id below [nextId], and shares its id with no other
    body; [nextId] never decreases. *)
Theorem registry_ids_stay_unique (ops : list World.op) (w : World) :
  registered w →
  World.removes_members ops w = true →
  World.adds_fresh ops w = true →
  ∃ w', World.run ops w = Some w'
    ∧ registered w'
    ∧ nextId (registry w) ≤ nextId (registry w').
Proof.
  revert w. induction ops as [|[b|b] ops IH]; intros w Hw Hrem Hadd; simpl in *.
  - exists w. split; [done|]. split; [done|]. lia.
  - apply andb_true_iff in Hadd as [Hfresh Hadd].
    apply negb_true_iff, bool_decide_eq_false in Hfresh.
    destruct (IH (World.add b w)) as (w' & Hrun & Hw' & Hnext);
      [by apply add_registered | done | done |].
    exists w'. split; [done|]. split; [done|]. simpl in Hnext. lia.
  - apply andb_true_iff in Hrem as [Hmem Hrem].
    apply bool_decide_eq_true in Hmem.
    destruct (remove_registered b w Hw Hmem) as (w1 & Hrun1 & Hw1 & Hnext1 & _).
    rewrite Hrun1 in *.
    destruct (IH w1) as (w' & Hrun & Hw' & Hnext); [done..|].
    exists w'. split; [done|]. split; [done|]. lia.
Qed.

(** X9.  The registry operations dispatch one event each and nothing else:
    whenever a sequence of [add]s and [remove]s completes, the trace has
    grown by the add-body and remove-body events of the operations, in
    their order. *)
Theorem registry_events_follow_operations (ops : list World.op) (w w' : World) :
  World.run ops w = Some w' →
  trace w' = trace w ++ (event_of_op <$> ops).
Proof.
  revert w. induction ops as [|[b|b] ops IH]; intros w Hrun; simpl in *.
  - injection Hrun as <-. by rewrite app_nil_r.
  - rewrite (IH _ Hrun). simpl. by rewrite <- app_assoc.
  - destruct (World.remove b w) as [w1|] eqn:Hrem; [|done].
    rewrite (IH _ Hrun). destruct (remove_frame _ _ _ Hrem) as (_ & _ & -> & _).
    by rewrite <- app_assoc.
Qed.

(** ** [step]: equations and pools *)

Lemma take_friction_length (pool : list FrictionEquation) (bi bj : ref) (slip : Q) :
  length (snd (World.take_friction pool bi bj slip)) = (length pool - 1)%nat.
Proof.
  unfold World.take_friction. destruct (last pool) eqn:Hlast; simpl.
  - rewrite length_take. lia.
  - apply last_None in Hlast. by subst.
Qed.

Lemma fold_left_keeps {A B} (proj : World → A) (f : World → B → World) (l : list B) (w : World) :
  (∀ v b, proj (f v b) = proj v) → proj (fold_left f l w) = proj w.
Proof.
  intros Hf. revert w. induction l as [|b l IH]; intros w; simpl; [done|].
  by rewrite IH, Hf.
Qed.

Lemma same_bodies_responding (w w' : World) (c : ContactEquation) :
  same_bodies w w' → World.responding w' c = World.responding w c.
Proof.
  intros Hb. unfold World.responding.
  rewrite (same_bodies_penetrating w w' c Hb).
  destruct (Hb (c_bi c)) as (_ & _ & _ & ->), (Hb (c_bj c)) as (_ & _ & _ & ->). done.
Qed.

Lemma same_bodies_frictional (w w' : World) (c : ContactEquation) :
  static w w' → same_bodies w w' → World.frictional w' c = World.frictional w c.
Proof.
  intros (_ & _ & Ht & Hm & Hcm) Hb. unfold World.frictional.
  rewrite (same_bodies_responding w w' c Hb).
  unfold World.resolve, World.getContactMaterial.
  destruct (Hb (c_bi c)) as (_ & _ & _ & ->), (Hb (c_bj c)) as (_ & _ & _ & ->).
  by rewrite Ht, Hm, Hcm.
Qed.

Section MoreStepFacts.
Context `{Env}.

(** One iteration of the loop over the contacts, on the equations. *)
Lemma contact_iteration_equations (c : ContactEquation) (w : World) :
  let e := equations w in
  let e' := equations (snd (World.contact_iteration c w)) in
  let f := if World.frictional w c then 2%nat else 0%nat in
  let r := if World.responding w c then 1%nat else 0%nat in
  contacts e' = contacts e
  ∧ oldContacts e' = oldContacts e
  ∧ length (frictionEquations e') = (length (frictionEquations e) + f)%nat
  ∧ length (frictionEquationPool e') = (length (frictionEquationPool e) - f)%nat
  ∧ length (solverEquations e') = (length (solverEquations e) + r + f)%nat.
Proof.
  unfold World.contact_iteration, World.frictional, World.responding, World.penetrating.
  set (bi := body (heap w) (c_bi c)). set (bj := body (heap w) (c_bj c)).
  destruct (Qltb (World.gap bi bj c) 0); simpl.
  2:{ repeat split; lia. }
  destruct (collisionResponse (phys bi) && collisionResponse (phys bj)); simpl.
  2:{ destruct (negb _); simpl; repeat split; lia. }
  unfold World.respond. fold bi bj.
  destruct (Qltb 0 (friction (World.resolve bi bj w))); simpl.
  2:{ destruct (negb _); simpl; rewrite ?length_app; simpl; repeat split; lia. }
  pose proof (take_friction_length (frictionEquationPool (equations w)) (c_bi c) (c_bj c)
                (friction (World.resolve bi bj w) * norm (gravity (settings w))
                 * World.reducedMass bi bj)) as L1.
  destruct (World.take_friction (frictionEquationPool (equations w)) _ _ _) as [c1 pool].
  pose proof (take_friction_length pool (c_bi c) (c_bj c)
                (friction (World.resolve bi bj w) * norm (gravity (settings w))
                 * World.reducedMass bi bj)) as L2.
  destruct (World.take_friction pool _ _ _) as [c2 pool'].
  simpl in L1, L2.
  destruct (negb _); simpl; rewrite ?length_app; simpl; repeat split; lia.
Qed.

(** The loop over the contacts, on the equations. *)
Lemma contact_loop_equations (cs : list ContactEquation) (w : World) :
  let e := equations w in
  let e' := equations (snd (World.contact_loop cs w)) in
  let f := (2 * length (List.filter (World.frictional w) cs))%nat in
  let r := length (List.filter (World.responding w) cs) in
  contacts e' = contacts e
  ∧ oldContacts e' = oldContacts e
  ∧ length (frictionEquations e') = (length (frictionEquations e) + f)%nat
  ∧ length (frictionEquationPool e') = (length (frictionEquationPool e) - f)%nat
  ∧ length (solverEquations e') = (length (solverEquations e) + r + f)%nat.
Proof.
  revert w. induction cs as [|c cs IH]; intros w; simpl.
  - repeat split; lia.
  - pose proof (contact_iteration_spec c w) as Hit.
    pose proof (contact_iteration_equations c w) as Heq.
    destruct (World.contact_iteration c w) as [c' w1]. simpl in Hit, Heq.
    destruct Hit as (_ & Hs & _ & Hb & _).
    destruct Heq as (E1 & E2 & E3 & E4 & E5).
    specialize (IH w1).
    destruct (World.contact_loop cs w1) as [cs' w2]. simpl in IH |- *.
    destruct IH as (F1 & F2 & F3 & F4 & F5).
    rewrite (List.filter_ext (World.frictional w1) (World.frictional w)) in F3, F4, F5
      by (intros x; by apply same_bodies_frictional).
    rewrite (List.filter_ext (World.responding w1) (World.responding w)) in F5
      by (intros x; by apply same_bodies_responding).
    rewrite F1, F2, F3, F4, F5, E1, E2, E3, E4, E5.
    destruct (World.frictional w c), (World.responding w c); simpl; repeat split; lia.
Qed.

Lemma add_gravity_keeps {A} (proj : World → A) :
  (∀ r f v, proj (on_body r f v) = proj v) →
  ∀ w, proj (World.for_bodies World.add_gravity w) = proj w.
Proof.
  intros Hp w. unfold World.for_bodies. apply fold_left_keeps. intros v r.
  unfold World.add_gravity. by destruct (World.has_flag _ _).
Qed.

(** Before the loop over the contacts, on the equations: the generator's
    contacts are in place, last step's friction equations are in the pool. *)
Lemma before_contacts_equations (w : World) :
  let A := World.before_contacts w in
  frictionEquations (equations A) = []
  ∧ frictionEquationPool (equations A)
    = frictionEquationPool (equations w) ++ frictionEquations (equations w)
  ∧ solverEquations (equations A) = solverEquations (equations w)
  ∧ constraints (registry A) = constraints (registry w).
Proof.
  unfold World.before_contacts.
  pose proof (add_gravity_keeps equations (fun _ _ _ => eq_refl) w) as Heq.
  pose proof (add_gravity_keeps registry (fun _ _ _ => eq_refl) w) as Hreg.
  set (w1 := World.for_bodies World.add_gravity w) in *.
  destruct (collisionPairs _ _) as [p1 p2].
  destruct (getContacts _ _ _ _ _) as [cs old].
  simpl. by rewrite Heq, Hreg.
Qed.

Lemma add_constraints_equations (w : World) :
  let w' := World.add_constraints w in
  contacts (equations w') = contacts (equations w)
  ∧ frictionEquations (equations w') = frictionEquations (equations w)
  ∧ frictionEquationPool (equations w') = frictionEquationPool (equations w)
  ∧ oldContacts (equations w') = oldContacts (equations w)
  ∧ solverEquations (equations w')
    = solverEquations (equations w) ++ (EqUser <$> World.constraint_equations w).
Proof.
  unfold World.add_constraints, World.constraint_equations.
  generalize (constraints (registry w)). intros ks. revert w.
  induction ks as [|k ks IH]; intros w; simpl.
  - rewrite app_nil_r. by repeat split.
  - set (w1 := fold_left (fun w e => addEquation (EqUser e) w) (k_equations k) w).
    assert (contacts (equations w1) = contacts (equations w)
            ∧ frictionEquations (equations w1) = frictionEquations (equations w)
            ∧ frictionEquationPool (equations w1) = frictionEquationPool (equations w)
            ∧ oldContacts (equations w1) = oldContacts (equations w)
            ∧ solverEquations (equations w1)
              = solverEquations (equations w) ++ (EqUser <$> k_equations k))
      as (G1 & G2 & G3 & G4 & G5).
    { subst w1. generalize (k_equations k). intros es. revert w.
      induction es as [|e es IHe]; intros w; simpl.
      - rewrite app_nil_r. by repeat split.
      - destruct (IHe (addEquation (EqUser e) w)) as (-> & -> & -> & -> & ->).
        simpl. rewrite <- app_assoc. by repeat split. }
    destruct (IH w1) as (-> & -> & -> & -> & ->).
    rewrite G1, G2, G3, G4, G5, fmap_app, <- app_assoc. by repeat split.
Qed.

(** After the solver has run, nothing touches the equations. *)
Lemma step_equations (dt : option Q) (w : World) :
  let pre := World.add_constraints
               (World.make_contact_constraints (World.before_contacts w)) in
  equations (World.step dt w) = set_solverEquations [] (equations pre).
Proof.
  intros pre. unfold World.step.
  set (d := World.step_dt dt w).
  assert (∀ (f : ref → World → World) v,
            (∀ r u, equations (f r u) = equations u) →
            equations (World.for_bodies f v) = equations v) as Hfor.
  { intros f v Hf. unfold World.for_bodies. apply fold_left_keeps. intros u r. apply Hf. }
  assert (∀ f r u, equations (World.call f r u) = equations u) as Hcall.
  { intros f r u. unfold World.call. by destruct (f r). }
  assert (equations (World.before_integration d w) = set_solverEquations [] (equations pre))
    as Hbefore.
  { unfold World.before_integration. fold pre.
    rewrite Hfor by apply Hcall. simpl.
    rewrite Hfor; [done|]. intros r u. unfold World.damp. by destruct (World.has_flag _ _). }
  set (wi := World.before_integration d w) in *.
  set (w1 := World.for_bodies _ wi).
  assert (equations w1 = equations wi) as H1.
  { subst w1. apply Hfor. intros r u. unfold World.integrate.
    cbn [equations on_body on_heap].
    rewrite (fold_left_keeps equations) by done.
    by destruct (World.integrated _). }
  set (w2 := World.for_bodies (World.call postStep) _).
  assert (equations w2 = equations wi) as H2.
  { subst w2. rewrite Hfor by apply Hcall. simpl. exact H1. }
  destruct (allowSleep (settings w2)).
  - rewrite Hfor by done. by rewrite H2.
  - by rewrite H2.
Qed.

(** X10.  What a step leaves in the world's equation lists.  The contact
    list is the generator's output, each penetrating contact between
    responding bodies annotated; there are exactly two friction equations
    per contact that penetrates between responding bodies with positive
    friction, none left over from the step before; friction equations are
    recycled, the pool shrinking by the number handed out (and new ones
    being made only when it is empty); and the solver holds no equation. *)
Theorem step_equation_lists (dt : option Q) (w : World) :
  let A := World.before_contacts w in
  let k := length (List.filter (World.frictional A) (contacts (equations A))) in
  contacts (equations (World.step dt w)) = World.annotate A <$> contacts (equations A)
  ∧ length (frictionEquations (equations (World.step dt w))) = (2 * k)%nat
  ∧ length (frictionEquationPool (equations (World.step dt w)))
    = (length (frictionEquationPool (equations w))
       + length (frictionEquations (equations w)) - 2 * k)%nat
  ∧ solverEquations (equations (World.step dt w)) = [].
Proof.
  intros A k. rewrite step_equations. fold A. simpl.
  destruct (add_constraints_equations (World.make_contact_constraints A))
    as (-> & -> & -> & _).
  unfold World.make_contact_constraints.
  pose proof (contact_loop_spec (contacts (equations A)) A) as (Hann & _).
  pose proof (contact_loop_equations (contacts (equations A)) A) as (_ & _ & Hf & Hp & _).
  destruct (World.contact_loop (contacts (equations A)) A) as [cs w1].
  simpl in Hann, Hf, Hp |- *.
  destruct (before_contacts_equations w) as (Ef & Ep & _). fold A in Ef, Ep.
  rewrite Hf, Hp, Ef, Ep, length_app. fold k. simpl.
  by repeat split.
Qed.

(** X11.  What the solver is handed in a step: whatever it held before the
    step, then one contact equation per penetrating contact between
    responding bodies and two friction equations per such contact with
    positive friction, then the equations of the user constraints, in the
    order of the constraint list. *)
Theorem equations_handed_to_solver (w : World) :
  let A := World.before_contacts w in
  let pre := World.add_constraints (World.make_contact_constraints A) in
  ∃ made : list Equation,
    solverEquations (equations pre)
      = made ++ (EqUser <$> World.constraint_equations w)
    ∧ length made
      = (length (solverEquations (equations w))
         + length (List.filter (World.responding A) (contacts (equations A)))
         + 2 * length (List.filter (World.frictional A) (contacts (equations A))))%nat.
Proof.
  intros A pre. subst pre.
  destruct (add_constraints_equations (World.make_contact_constraints A))
    as (_ & _ & _ & _ & ->).
  exists (solverEquations (equations (World.make_contact_constraints A))).
  destruct (make_contact_constraints_spec A) as ((_ & Hreg & _) & _).
  destruct (before_contacts_equations w) as (_ & _ & Es & Ec). fold A in Es, Ec.
  split.
  - unfold World.constraint_equations. by rewrite Hreg, Ec.
  - unfold World.make_contact_constraints.
    pose proof (contact_loop_equations (contacts (equations A)) A) as (_ & _ & _ & _ & Hs).
    destruct (World.contact_loop (contacts (equations A)) A) as [cs w1].
    simpl in Hs |- *. rewrite Hs, Es. lia.
Qed.

(** ** [step]: the loops over the bodies *)

Lemma visit_outside (g : Body → Body) (l : list ref) (h : ref → Body) (r : ref) :
  r ∉ l → visit g l h r = h r.
Proof.
  unfold visit. revert h. induction l as [|a l IH]; intros h Hr; simpl; [done|].
  apply not_elem_of_cons in Hr as [Hne Hr].
  rewrite IH by done. by apply update_ne.
Qed.

Lemma visit_once (g : Body → Body) (l : list ref) (h : ref → Body) (r : ref) :
  NoDup l → r ∈ l → visit g l h r = g (h r).
Proof.
  unfold visit. revert h. induction l as [|a l IH]; intros h Hnd Hr; simpl.
  - by apply elem_of_nil in Hr.
  - apply NoDup_cons in Hnd as [Ha Hnd].
    apply elem_of_cons in Hr as [->|Hr].
    + fold (visit g l (update a g h) a). rewrite visit_outside by done. apply update_eq.
    + rewrite IH by done. f_equal. apply update_ne. intros ->. done.
Qed.

Lemma visit_invariant (P : Body → Prop) (g : Body → Body) (l : list ref) (h : ref → Body)
    (r : ref) :
  (∀ b, P b → P (g b)) → P (h r) → P (visit g l h r).
Proof.
  intros Hg. unfold visit. revert h. induction l as [|a l IH]; intros h Hr; simpl; [done|].
  apply IH. unfold update. destruct (decide (r = a)); [by apply Hg|done].
Qed.

Lemma visit_reaches (P : Body → Prop) (g : Body → Body) (l : list ref) (h : ref → Body)
    (r : ref) :
  (∀ b, P (g b)) → r ∈ l → P (visit g l h r).
Proof.
  intros Hg. unfold visit. revert h. induction l as [|a l IH]; intros h Hr; simpl.
  - by apply elem_of_nil in Hr.
  - apply elem_of_cons in Hr as [->|Hr]; [|by apply IH].
    apply (visit_invariant P g l); [by intros b _|].
    rewrite update_eq. apply Hg.
Qed.

Lemma visit_ext (g : Body → Body) (l : list ref) (h h' : ref → Body) :
  (∀ r, h r = h' r) → ∀ r, visit g l h r = visit g l h' r.
Proof.
  unfold visit. revert h h'. induction l as [|a l IH]; intros h h' Hh r; simpl; [done|].
  apply IH. intros r'. unfold update. destruct (decide (r' = a)); by rewrite Hh.
Qed.

(** A loop over the bodies whose iteration for [r] applies [g] to body [r],
    as long as the world satisfies [inv], is a visit of the registry. *)
Lemma for_bodies_visit (inv : World → Prop) (f : ref → World → World) (g : Body → Body)
    (w : World) :
  inv w →
  (∀ r v, inv v → inv (f r v) ∧ registry (f r v) = registry v
                  ∧ ∀ r', body (heap (f r v)) r' = update r g (body (heap v)) r') →
  ∀ r, body (heap (World.for_bodies f w)) r = visit g (bodies (registry w)) (body (heap w)) r.
Proof.
  intros Hw Hf. unfold World.for_bodies, visit.
  generalize (bodies (registry w)). intros l. revert w Hw.
  induction l as [|a l IH]; intros w Hw r; simpl; [done|].
  destruct (Hf a w Hw) as (Hinv & _ & Hbody).
  rewrite IH by done. apply (visit_ext g l). exact Hbody.
Qed.

Lemma gravity_loop_heap (w : World) (r : ref) :
  body (heap (World.for_bodies World.add_gravity w)) r
  = visit (World.pulled (gravity (settings w))) (bodies (registry w)) (body (heap w)) r.
Proof.
  apply (for_bodies_visit (fun v => settings v = settings w)); [done|].
  intros a v Hv. destruct (add_gravity_quiet a v) as ((Es & Er & _) & _).
  split; [congruence|]. split; [done|].
  intros r'. unfold World.add_gravity, World.pulled. rewrite Hv.
  unfold update. destruct (decide (r' = a)) as [->|Hne].
  - destruct (World.has_flag (body (heap v) a) DYNAMIC); simpl; by rewrite ?update_eq.
  - destruct (World.has_flag (body (heap v) a) DYNAMIC); simpl; by rewrite ?update_ne.
Qed.

(** X12.  Gravity is added to dynamic bodies, once: after "Add gravity to
    all objects", a body that is not dynamic or not in the registry is as it
    was, and in a registry without repetition a dynamic body has gained
    [mass * gravity] on its force and nothing else. *)
Theorem gravity_reaches_dynamic_bodies (w : World) (r : ref) :
  let b := body (heap w) r in
  let b' := body (heap (World.for_bodies World.add_gravity w)) r in
  (r ∉ bodies (registry w) → b' = b)
  ∧ (World.has_flag b DYNAMIC = false → b' = b)
  ∧ (NoDup (bodies (registry w)) → r ∈ bodies (registry w) →
     World.has_flag b DYNAMIC = true →
     b' = on_lin (fun l => set_force (World.plus_scaled (force l) (mass (phys b))
                                        (gravity (settings w))) l) b).
Proof.
  intros b b'. subst b'. rewrite gravity_loop_heap. fold b.
  split; [|split].
  - intros Hr. by apply visit_outside.
  - intros Hdyn.
    apply (visit_invariant (fun x => x = b)); [|done].
    intros x ->. unfold World.pulled. by rewrite Hdyn.
  - intros Hnd Hr Hdyn. rewrite visit_once by done. fold b.
    unfold World.pulled. by rewrite Hdyn.
Qed.

(** The leap frog loop is a visit of the registry. *)
Lemma leap_frog_heap (dt : Q) (qn fast : bool) (w : World) (r : ref) :
  body (heap (World.for_bodies (World.integrate dt qn fast) w)) r
  = visit (World.leapt dt qn fast) (bodies (registry w)) (body (heap w)) r.
Proof.
  apply (for_bodies_visit (fun _ => True)); [done|].
  intros a v _. destruct (integrate_spec dt qn fast a v) as ((_ & Er & _) & _).
  split; [done|]. split; [done|].
  intros r'. unfold World.integrate, World.leapt.
  cbn [heap on_body on_heap body].
  destruct (dispatch_all_spec
              (World.normalize_calls qn fast a (body (heap v) a))
              (if World.integrated (body (heap v) a)
               then on_body a (fun b =>
                      on_rot (World.integrate_rot dt qn fast)
                        (on_lin (World.integrate_lin dt (invMass (phys b))) b)) v
               else v)) as (_ & _ & _ & -> & _).
  unfold update. destruct (decide (r' = a)) as [->|Hne].
  - destruct (World.integrated (body (heap v) a)); simpl; by rewrite ?update_eq.
  - destruct (World.integrated (body (heap v) a)); simpl; by rewrite ?update_ne.
Qed.

(** After the leap frog, with no [postStep] callable and sleeping disabled,
    the bodies are as the leap frog left them. *)
Lemma step_heap (dt : option Q) (w : World) (r : ref) :
  (∀ r, postStep r = None) →
  allowSleep (settings w) = false →
  body (heap (World.step dt w)) r
  = visit (World.leapt (World.step_dt dt w) (World.quatNormalize w)
             (quatNormalizeFast (settings w)))
      (bodies (registry w))
      (body (heap (World.before_integration (World.step_dt dt w) w))) r.
Proof.
  intros Hpost Hsleep.
  destruct (before_integration_spec (World.step_dt dt w) w) as ((Es & Er & _) & Ec & _).
  rewrite <- Er, <- Es.
  assert (World.quatNormalize w
          = World.quatNormalize (World.before_integration (World.step_dt dt w) w)) as ->.
  { unfold World.quatNormalize. by rewrite Ec, Es. }
  rewrite <- leap_frog_heap.
  unfold World.step.
  set (w1 := World.for_bodies _ (World.before_integration (World.step_dt dt w) w)).
  set (w2 := dispatchEvent PostStepEvent (on_clock _ w1)).
  assert (World.for_bodies (World.call postStep) w2 = w2) as ->.
  { unfold World.for_bodies. generalize (bodies (registry w2)). intros l.
    generalize w2. induction l as [|a l IH]; intros v; simpl; [done|].
    unfold World.call at 2. by rewrite Hpost. }
  assert (allowSleep (settings w2) = false) as ->; [|done].
  subst w2 w1. simpl.
  destruct (integrate_loop_spec (World.step_dt dt w)
              (World.quatNormalize (World.before_integration (World.step_dt dt w) w))
              (quatNormalizeFast (settings (World.before_integration (World.step_dt dt w) w)))
              (bodies (registry (World.before_integration (World.step_dt dt w) w)))
              (World.before_integration (World.step_dt dt w) w)) as ((E & _) & _).
  unfold World.for_bodies. by rewrite E, Es.
Qed.

(** X13.  Force and torque do not survive a step: with no [postStep]
    callable and sleeping disabled, every body of the registry ends the step
    with zero force and, if it is rotational, zero torque, whatever its
    motion state. *)
Theorem step_clears_accumulators (dt : option Q) (w : World) (r : ref) :
  (∀ r, postStep r = None) →
  allowSleep (settings w) = false →
  r ∈ bodies (registry w) →
  force (lin (body (heap (World.step dt w)) r)) = Vec3_zero
  ∧ (∀ o, rot (body (heap (World.step dt w)) r) = Some o → tau o = Vec3_zero).
Proof.
  intros Hpost Hsleep Hr. rewrite step_heap by done.
  apply (visit_reaches (fun b => force (lin b) = Vec3_zero
                                 ∧ ∀ o, rot b = Some o → tau o = Vec3_zero)); [|done].
  intros b. unfold World.leapt. split; [reflexivity|].
  intros o. simpl. destruct (rot (if World.integrated b then _ else b)); simpl; [|done].
  by intros [= <-].
Qed.

(** X14.  The integrator leaves bodies at rest alone: with no [postStep]
    callable and sleeping disabled, a body that is neither dynamic nor
    kinematic, or that sleeps, when the leap frog starts has at the end of
    the step the position, velocity, quaternion and angular velocity it had
    then. *)
Theorem step_does_not_move_resting_bodies (dt : option Q) (w : World) (r : ref) :
  let b := body (heap (World.before_integration (World.step_dt dt w) w)) r in
  let b' := body (heap (World.step dt w)) r in
  (∀ r, postStep r = None) →
  allowSleep (settings w) = false →
  World.integrated b = false →
  position (lin b') = position (lin b)
  ∧ velocity (lin b') = velocity (lin b)
  ∧ (quaternion <$> rot b') = (quaternion <$> rot b)
  ∧ (angularVelocity <$> rot b') = (angularVelocity <$> rot b).
Proof.
  intros b b' Hpost Hsleep Hrest. subst b'. rewrite step_heap by done. fold b.
  apply (visit_invariant
           (fun x => World.integrated x = false
                     ∧ position (lin x) = position (lin b)
                     ∧ velocity (lin x) = velocity (lin b)
                     ∧ (quaternion <$> rot x) = (quaternion <$> rot b)
                     ∧ (angularVelocity <$> rot x) = (angularVelocity <$> rot b))).
  - intros x (Hx & Hp & Hv & Hq & Ha). unfold World.leapt. rewrite Hx.
    split; [exact Hx|]. simpl. rewrite <- Hq, <- Ha.
    repeat split; try done; by destruct (rot x).
  - by repeat split.
Qed.

(** X15.  The leap frog is semi-implicit: with no [postStep] callable and
    sleeping disabled, in a registry without repetition, a body that the
    integrator moves ends the step with velocity [v + force * invMass * dt]
    and with position [x + vnew * dt], [vnew] being that new velocity. *)
Theorem step_leap_frog (dt : option Q) (w : World) (r : ref) :
  let d := World.step_dt dt w in
  let b := body (heap (World.before_integration d w)) r in
  let b' := body (heap (World.step dt w)) r in
  let v := velocity (lin b) in
  let f := force (lin b) in
  let x := position (lin b) in
  let vnew := velocity (lin b') in
  (∀ r, postStep r = None) →
  allowSleep (settings w) = false →
  NoDup (bodies (registry w)) →
  r ∈ bodies (registry w) →
  World.integrated b = true →
  vnew = mkVec3 (v_x v + v_x f * invMass (phys b) * d)
                (v_y v + v_y f * invMass (phys b) * d)
                (v_z v + v_z f * invMass (phys b) * d)
  ∧ position (lin b') = mkVec3 (v_x x + v_x vnew * d) (v_y x + v_y vnew * d)
                               (v_z x + v_z vnew * d).
Proof.
  intros d b b' v f x vnew Hpost Hsleep Hnd Hr Hint.
  subst vnew b'. rewrite step_heap by done. fold d.
  rewrite visit_once by done. fold b.
  unfold World.leapt. rewrite Hint. simpl. done.
Qed.

(** ** [step]: who is woken, what is kept, in which order *)

(** One iteration of the loop over the contacts, on the bodies. *)
Lemma contact_iteration_heap (c : ContactEquation) (w : World) (r : ref) :
  body (heap (snd (World.contact_iteration c w))) r
  = if World.rising w c
    then update (c_bj c) wakeUp (update (c_bi c) wakeUp (body (heap w))) r
    else body (heap w) r.
Proof.
  unfold World.contact_iteration, World.rising, World.penetrating, World.key_of.
  set (bi := body (heap w) (c_bi c)). set (bj := body (heap w) (c_bj c)).
  destruct (Qltb (World.gap bi bj c) 0); simpl; [|done].
  set (x := if collisionResponse (phys bi) && collisionResponse (phys bj)
            then World.respond c (World.resolve bi bj w) (World.gap bi bj c) w
            else (c, w)).
  assert ((c_bi (fst x) = c_bi c ∧ c_bj (fst x) = c_bj c)
          ∧ quiet w (snd x) ∧ body (heap (snd x)) = body (heap w)) as (Hc & Hq & Hb).
  { subst x. destruct (collisionResponse (phys bi) && collisionResponse (phys bj)).
    - destruct (respond_spec c (World.resolve bi bj w) (World.gap bi bj c) w)
        as (-> & Hq & Hb).
      split; [by split|]. by split.
    - split; [done|]. split; [apply quiet_refl|done]. }
  destruct x as [c' w1]. simpl in Hc, Hq, Hb. destruct Hc as [Ebi Ebj].
  destruct Hq as (_ & _ & Hcol & _).
  simpl. rewrite matrix_get_set, Hcol.
  change (bool_decide (pair_key bi bj ∈ touching (collisionMatrixPrevious (collision w))))
    with (matrix_get (collisionMatrixPrevious (collision w)) bi bj).
  destruct (matrix_get (collisionMatrixPrevious (collision w)) bi bj); simpl.
  - by rewrite Hb.
  - by rewrite Hb, Ebi, Ebj.
Qed.

Lemma same_bodies_rising (w w' : World) (c : ContactEquation) :
  same_bodies w w' →
  collisionMatrixPrevious (collision w') = collisionMatrixPrevious (collision w) →
  World.rising w' c = World.rising w c.
Proof.
  intros Hb Hprev. unfold World.rising.
  by rewrite (same_bodies_penetrating w w' c Hb), (same_bodies_key_of w w' c Hb), Hprev.
Qed.

(** The loop over the contacts, on the sleep state of a body. *)
Lemma contact_loop_sleep (cs : list ContactEquation) (w : World) (r : ref) :
  sleep (body (heap (snd (World.contact_loop cs w))) r)
  = if existsb (fun c => World.rising w c
                         && (bool_decide (r = c_bi c) || bool_decide (r = c_bj c))) cs
    then set_sleepState AWAKE (sleep (body (heap w) r))
    else sleep (body (heap w) r).
Proof.
  revert w. induction cs as [|c cs IH]; intros w; simpl; [done|].
  pose proof (contact_iteration_spec c w) as Hit.
  pose proof (contact_iteration_heap c w r) as Hheap.
  destruct (World.contact_iteration c w) as [c' w1]. simpl in Hit, Hheap.
  destruct Hit as (_ & _ & _ & Hb & Hprev & _).
  specialize (IH w1).
  destruct (World.contact_loop cs w1) as [cs' w2]. simpl in IH |- *.
  rewrite IH, Hheap. clear IH.
  rewrite (existsb_pointwise _
             (fun c => World.rising w c && (bool_decide (r = c_bi c) || bool_decide (r = c_bj c))))
    by (intros x; by rewrite (same_bodies_rising w w1 x Hb Hprev)).
  destruct (World.rising w c); simpl; [|done].
  unfold update.
  destruct (decide (r = c_bj c)) as [Hj|Hj], (decide (r = c_bi c)) as [Hi|Hi].
  - rewrite (bool_decide_eq_true_2 (r = c_bi c) Hi). simpl.
    destruct (existsb _ cs); reflexivity.
  - rewrite (bool_decide_eq_true_2 (r = c_bj c) Hj), orb_true_r. simpl.
    destruct (existsb _ cs); reflexivity.
  - rewrite (bool_decide_eq_true_2 (r = c_bi c) Hi). simpl.
    destruct (existsb _ cs); reflexivity.
  - rewrite (bool_decide_eq_false_2 (r = c_bi c) Hi), (bool_decide_eq_false_2 (r = c_bj c) Hj).
    reflexivity.
Qed.

(** X16.  The contact phase moves nobody and wakes exactly the bodies of
    first contacts: after the loop over the contacts every body has the
    membership, linear and rotational state and properties it had before;
    a body of a penetrating contact whose pair was not touching in the
    previous step is awake; every other body has the sleep state it had. *)
Theorem contact_phase_wakes_first_contacts (w : World) (r : ref) :
  let w' := World.make_contact_constraints w in
  same_bodies w w'
  ∧ sleep (body (heap w') r)
    = if World.hit w r
      then set_sleepState AWAKE (sleep (body (heap w) r))
      else sleep (body (heap w) r).
Proof.
  unfold World.make_contact_constraints, World.hit.
  pose proof (contact_loop_spec (contacts (equations w)) w) as (_ & _ & _ & Hb & _).
  pose proof (contact_loop_sleep (contacts (equations w)) w r) as Hsleep.
  destruct (World.contact_loop (contacts (equations w)) w) as [cs w1].
  simpl in Hb, Hsleep |- *. split; [exact Hb | exact Hsleep].
Qed.

Lemma step_static (dt : option Q) (w : World) : static w (World.step dt w).
Proof.
  destruct (before_integration_spec (World.step_dt dt w) w) as (Si & _).
  unfold World.step.
  set (wi := World.before_integration (World.step_dt dt w) w) in *.
  destruct (integrate_loop_spec (World.step_dt dt w) (World.quatNormalize wi)
              (quatNormalizeFast (settings wi)) (bodies (registry wi)) wi) as (S1 & _).
  fold (World.for_bodies (World.integrate (World.step_dt dt w) (World.quatNormalize wi)
                            (quatNormalizeFast (settings wi))) wi) in S1.
  set (w1 := World.for_bodies _ wi) in *.
  set (w2 := dispatchEvent PostStepEvent (on_clock _ w1)).
  assert (static w1 w2) as S2 by (by repeat split).
  pose proof (for_bodies_quiet (World.call postStep) w2 (call_quiet postStep)) as (S3 & _).
  set (w3 := World.for_bodies (World.call postStep) w2) in *.
  assert (static w3 (if allowSleep (settings w3)
                     then World.for_bodies
                            (fun r w => on_body r (sleepTick (time (clock w))) w) w3
                     else w3)) as S4.
  { destruct (allowSleep (settings w3)); [|apply static_refl].
    apply for_bodies_quiet. intros r v. apply on_body_quiet. }
  eapply static_trans; [exact Si|]. eapply static_trans; [exact S1|].
  eapply static_trans; [exact S2|]. eapply static_trans; [exact S3|exact S4].
Qed.

(** X17.  What a step never touches: the settings (gravity, step sizes,
    normalisation and sleep options), the registry (body list, constraint
    list, [nextId]), the material table and the material and contact
    material objects.  And the double buffer is turned once: after the step
    the previous collision matrix holds the pairs the current one held
    before it. *)
Theorem step_keeps_world_structure (dt : option Q) (w : World) :
  settings (World.step dt w) = settings w
  ∧ registry (World.step dt w) = registry w
  ∧ table (World.step dt w) = table w
  ∧ materialOf (heap (World.step dt w)) = materialOf (heap w)
  ∧ contactMaterialOf (heap (World.step dt w)) = contactMaterialOf (heap w)
  ∧ touching (collisionMatrixPrevious (collision (World.step dt w)))
    = touching (collisionMatrix (collision w)).
Proof.
  destruct (step_static dt w) as (-> & -> & -> & -> & ->).
  do 5 (split; [done|]).
  destruct (step_spec dt w) as (_ & _ & _ & -> & _).
  unfold World.make_contact_constraints.
  pose proof (contact_loop_spec (contacts (equations (World.before_contacts w)))
                (World.before_contacts w)) as (_ & _ & _ & _ & Hprev & _).
  destruct (World.contact_loop _ (World.before_contacts w)) as [cs w1].
  simpl in Hprev |- *. rewrite Hprev.
  by destruct (before_contacts_spec w) as (_ & _ & _ & -> & _).
Qed.

(** X18.  The order of the events of a step: first the collide events and
    wake-ups of the contact phase, then the pre-step event, then the
    normalisation calls, all through the routine [quatNormalizeFast]
    selects and for bodies of the registry only (none at all on a step that
    skips normalisation), and last the post-step event. *)
Theorem step_event_order (dt : option Q) (w : World) :
  ∃ edges calls : list Event,
    World.step_events dt w = edges ++ [PreStepEvent] ++ calls ++ [PostStepEvent]
    ∧ Forall (fun e => World.is_edge e = true) edges
    ∧ Forall (fun e => ∃ r, r ∈ bodies (registry w)
                            ∧ e = if quatNormalizeFast (settings w)
                                  then NormalizeFastCall r else NormalizeCall r) calls
    ∧ (World.quatNormalize w = false → calls = []).
Proof.
  rewrite step_events_spec. eexists _, _. split; [reflexivity|].
  split; [|split].
  - apply Forall_forall. intros e He. apply list_elem_of_In in He.
    by apply edge_events_are_edges in He.
  - apply Forall_forall. intros e He. apply list_elem_of_In, in_flat_map in He.
    destruct He as (r & Hr & He). exists r. split; [by apply list_elem_of_In|].
    unfold World.normalize_calls in He. destruct (_ && _ && _); [|done].
    by destruct He as [<-|[]].
  - intros Hqn. rewrite Hqn.
    generalize (bodies (registry w)). intros l. induction l as [|a l IH]; simpl; [done|].
    rewrite IH. unfold World.normalize_calls. by rewrite andb_false_r.
Qed.

End MoreStepFacts.
